(** * ExpireMap (Go): the expiring cache of [ExpireMap/expcache_golang/expcache.go]

    A shallow embedding of the cache, of its [TimeoutManager] and of the
    background purger, followed by the properties of the design document
    that concern them.

    Conventions of the embedding.
    - Go's [int64] and [int] are [Z]; every arithmetic operation of the
      source is followed by [wrap64], its two's complement wrap-around.
    - [interface{}] keys and values are the small universe [iface].
    - [map[interface{}]TimedData] is a [gmap]; slices are lists.
    - [time.Now().UnixNano()] is an explicit argument [now].
    - A run-time panic (index out of range, close of a closed channel, send
      on a closed channel) is the result [Panic].
    - Code that runs between [c.Lock()] and [c.Unlock()] is one function:
      the critical sections are the atomic steps of the system. *)

From stdpp Require Import gmap strings list fin_maps sorting.
From Stdlib Require Import ZArith Lia.

Local Open Scope Z_scope.

(** ** Machine integers *)

Definition MaxInt64 : Z := 9223372036854775807.

Definition wrap64 (z : Z) : Z := (z + 2 ^ 63) mod 2 ^ 64 - 2 ^ 63.

Definition int64_range (z : Z) : Prop := - 2 ^ 63 <= z <= MaxInt64.

(** [int64(time.Millisecond)] *)
Definition Millisecond : Z := 1000000.

(** ** Values of type [interface{}] *)

Inductive iface : Type :=
  | INil
  | IInt (n : Z)
  | IStr (s : string).

#[global] Instance iface_eq_dec : EqDecision iface.
Proof. solve_decision. Defined.

Definition iface_enc (x : iface) : unit + (Z + string) :=
  match x with
  | INil => inl tt
  | IInt n => inr (inl n)
  | IStr s => inr (inr s)
  end.

Definition iface_dec (y : unit + (Z + string)) : iface :=
  match y with
  | inl _ => INil
  | inr (inl n) => IInt n
  | inr (inr s) => IStr s
  end.

#[global] Instance iface_countable : Countable iface.
Proof.
  apply (inj_countable' iface_enc iface_dec).
  intros []; reflexivity.
Defined.

(** ** Results of code that may panic *)

Inductive result (A : Type) : Type :=
  | Ok (a : A)
  | Panic.
Arguments Ok {A} a.
Arguments Panic {A}.

(** Sequencing stops at the first panic; [x ← r; k] is stdpp's notation
    for [mbind]. *)
#[global] Instance result_bind : MBind result :=
  fun A B (f : A -> result B) (r : result A) =>
    match r with
    | Ok a => f a
    | Panic => Panic
    end.

(** ** Data model *)

(** [type TimedData struct { data interface{}; timeout int64 }].  The source
    stores three kinds of payload in [data]: a cached value, a [*KeyOper]
    and a key list; the payload type is a parameter here. *)
Record TimedData (A : Type) : Type := mkTimedData {
  data : A;
  timeout : Z
}.
Arguments mkTimedData {A} data timeout.
Arguments data {A} t.
Arguments timeout {A} t.

Inductive Oper : Type := ADD | DEL.

#[global] Instance Oper_eq_dec : EqDecision Oper.
Proof. solve_decision. Defined.

Record KeyOper : Type := mkKeyOper {
  key : iface;
  oper : Oper
}.

(** One record of [operLog]. *)
Abbreviation LogRec := (TimedData KeyOper).

(** One element of [timeouts]: the keys that share a deadline. *)
Abbreviation Bucket := (TimedData (list iface)).

(** [resched chan struct{}] has capacity 1: it holds at most one token and
    may be closed. *)
Record chan : Type := mkChan {
  buffered : bool;
  closed : bool
}.

(** [TimeoutManager].  [purgeTimer] is [Some e] when the timer is armed to
    fire at instant [e], [None] when it is stopped or has fired. *)
Record TimeoutManager : Type := mkTM {
  operLog : list LogRec;
  nextPurgeTime : Z;
  cacheSize : Z;
  timeouts : list Bucket;
  pendingRatio : Z;
  pendingMax : Z;
  resched : chan;
  purgeTimer : option Z
}.

(** [Cache].  [cdata] is the field [data] of the source (the name [data] is
    taken by [TimedData]).  [purgerRunning] is ghost state: whether the
    goroutine started by [go c.purger()] is still inside its loop. *)
Record Cache : Type := mkCache {
  cdata : gmap iface (TimedData iface);
  tm : TimeoutManager;
  purgerRunning : bool
}.

Definition DEF_OPER_LOG_TO_DATA_RATIO : Z := 2.
Definition DEF_OPER_LOG_MAX_SIZE : Z := 32.

(** *** Field updates *)

Definition set_operLog (l : list LogRec) (c : TimeoutManager) : TimeoutManager :=
  mkTM l (nextPurgeTime c) (cacheSize c) (timeouts c) (pendingRatio c)
       (pendingMax c) (resched c) (purgeTimer c).

Definition set_nextPurgeTime (t : Z) (c : TimeoutManager) : TimeoutManager :=
  mkTM (operLog c) t (cacheSize c) (timeouts c) (pendingRatio c)
       (pendingMax c) (resched c) (purgeTimer c).

Definition set_cacheSize (n : Z) (c : TimeoutManager) : TimeoutManager :=
  mkTM (operLog c) (nextPurgeTime c) n (timeouts c) (pendingRatio c)
       (pendingMax c) (resched c) (purgeTimer c).

Definition set_timeouts (ts : list Bucket) (c : TimeoutManager) : TimeoutManager :=
  mkTM (operLog c) (nextPurgeTime c) (cacheSize c) ts (pendingRatio c)
       (pendingMax c) (resched c) (purgeTimer c).

Definition set_resched (ch : chan) (c : TimeoutManager) : TimeoutManager :=
  mkTM (operLog c) (nextPurgeTime c) (cacheSize c) (timeouts c) (pendingRatio c)
       (pendingMax c) ch (purgeTimer c).

Definition set_purgeTimer (t : option Z) (c : TimeoutManager) : TimeoutManager :=
  mkTM (operLog c) (nextPurgeTime c) (cacheSize c) (timeouts c) (pendingRatio c)
       (pendingMax c) (resched c) t.

Definition set_cdata (m : gmap iface (TimedData iface)) (c : Cache) : Cache :=
  mkCache m (tm c) (purgerRunning c).

Definition set_tm (t : TimeoutManager) (c : Cache) : Cache :=
  mkCache (cdata c) t (purgerRunning c).

Definition set_purgerRunning (b : bool) (c : Cache) : Cache :=
  mkCache (cdata c) (tm c) b.

(** [len(s)] as a Go [int]. *)
Definition len {A : Type} (l : list A) : Z := Z.of_nat (length l).

(** ** Construction and shutdown *)

(** [newTimeoutManager(cac, args...)]: the state the constructor builds.
    The timer is created and stopped at once; [go c.purger()] is accounted
    for by [New]. *)
Definition newTimeoutManager (args : list Z) : TimeoutManager :=
  let ratio := match args with a0 :: _ => a0 | [] => DEF_OPER_LOG_TO_DATA_RATIO end in
  let pmax := match args with _ :: a1 :: _ => a1 | _ => DEF_OPER_LOG_MAX_SIZE end in
  mkTM [] MaxInt64 0 [] ratio pmax (mkChan false false) None.

(** [New(args...)]: an empty map, a fresh manager, and the purger goroutine
    already started. *)
Definition New (args : list Z) : Cache :=
  mkCache ∅ (newTimeoutManager args) true.

(** [TimeoutManager.Close]: [purgeTimer.Stop()] then [close(c.resched)];
    closing a closed channel panics. *)
Definition tmClose (c : TimeoutManager) : result TimeoutManager :=
  let c1 := set_purgeTimer None c in
  if closed (resched c1) then Panic
  else Ok (set_resched (mkChan (buffered (resched c1)) true) c1).

(** [Cache.Close] *)
Definition Close (c : Cache) : result Cache :=
  t ← tmClose (tm c); Ok (set_tm t c).

(** ** Client side of the manager (called with the cache lock held) *)

(** [pendingLimit] *)
Definition pendingLimit (c : TimeoutManager) : Z :=
  let pl := wrap64 (pendingRatio c * cacheSize c) in
  if pl <? pendingMax c then pendingMax c else pl.

(** [appendAddOper(key, oTo, nTo)] *)
Definition appendAddOper (k : iface) (oTo nTo : Z) (c : TimeoutManager)
  : TimeoutManager * bool :=
  let c1 :=
    if oTo =? 0 then set_cacheSize (wrap64 (cacheSize c + 1)) c
    else set_operLog (operLog c ++ [mkTimedData (mkKeyOper k DEL) oTo]) c in
  let c2 := set_operLog (operLog c1 ++ [mkTimedData (mkKeyOper k ADD) nTo]) c1 in
  if (oTo =? nextPurgeTime c2) || (nTo <? nextPurgeTime c2)
     || (pendingLimit c2 <? len (operLog c2))
  then (c2, true) else (c2, false).

(** [appendDelOper(k, to)] *)
Definition appendDelOper (k : iface) (to : Z) (c : TimeoutManager)
  : TimeoutManager * bool :=
  let c1 := set_cacheSize (wrap64 (cacheSize c - 1)) c in
  let c2 := set_operLog (operLog c1 ++ [mkTimedData (mkKeyOper k DEL) to]) c1 in
  if (to =? nextPurgeTime c2) || (pendingLimit c2 <? len (operLog c2))
  then (c2, true) else (c2, false).

(** [notifyResched]: a non-blocking send.  On an open channel the token is
    stored when the buffer is free and dropped otherwise; a send on a closed
    channel panics. *)
Definition notifyResched (c : TimeoutManager) : result TimeoutManager :=
  if closed (resched c) then Panic
  else Ok (set_resched (mkChan true false) c).

(** ** Cache operations *)

(** The critical section of [Put] for [timeoutMs > 0]: lines between
    [c.Lock()] and [c.Unlock()].  Returns the new state and [needResched]. *)
Definition Put_locked (k v : iface) (timeoutMs now : Z) (c : Cache) : Cache * bool :=
  let ent :=
    match cdata c !! k with
    | Some e => e
    | None => mkTimedData INil 0
    end in
  let oTo := timeout ent in
  let nTo := wrap64 (now + wrap64 (timeoutMs * Millisecond)) in
  let ent' := mkTimedData v nTo in
  let c1 := set_cdata (<[k := ent']> (cdata c)) c in
  let '(t, needResched) := appendAddOper k oTo nTo (tm c1) in
  (set_tm t c1, needResched).

(** [Cache.Put(k, v, timeoutMs)] *)
Definition Put (k v : iface) (timeoutMs now : Z) (c : Cache) : result Cache :=
  if timeoutMs <=? 0 then Ok c
  else
    let '(c1, needResched) := Put_locked k v timeoutMs now c in
    if needResched then t ← notifyResched (tm c1); Ok (set_tm t c1)
    else Ok c1.

(** [Cache.Get(k)] *)
Definition Get (k : iface) (c : Cache) : iface :=
  match cdata c !! k with
  | Some vt => data vt
  | None => INil
  end.

(** The critical section of [Remove] when the entry [vt] exists. *)
Definition Remove_locked (k : iface) (vt : TimedData iface) (c : Cache) : Cache * bool :=
  let c1 := set_cdata (delete k (cdata c)) c in
  let '(t, needResched) := appendDelOper k (timeout vt) (tm c1) in
  (set_tm t c1, needResched).

(** [Cache.Remove(k)]: the new state and the returned value. *)
Definition Remove (k : iface) (c : Cache) : result (Cache * iface) :=
  match cdata c !! k with
  | None => Ok (c, INil)
  | Some vt =>
      let '(c1, needResched) := Remove_locked k vt c in
      if needResched then t ← notifyResched (tm c1); Ok (set_tm t c1, data vt)
      else Ok (c1, data vt)
  end.

(** [Cache.Size()] *)
Definition Size (c : Cache) : Z := Z.of_nat (size (cdata c)).

(** ** Purger side of the manager *)

(** [sort.Search(n, f)] of Go's standard library: binary search for the
    least index in [0, n) at which [f] holds, [n] when there is none.
    Each iteration shrinks [j - i], so [n] iterations are enough
    (proved below). *)
Fixpoint search_loop (fuel : nat) (f : nat -> bool) (i j : nat) : nat :=
  match fuel with
  | O => i
  | S fuel' =>
      if (i <? j)%nat then
        let h := ((i + j) / 2)%nat in
        if f h then search_loop fuel' f i h
        else search_loop fuel' f (S h) j
      else i
  end.

Definition sort_Search (n : nat) (f : nat -> bool) : nat :=
  search_loop n f 0%nat n.

(** The closure passed to [sort.Search] by the replay loop:
    [c.timeouts[n].timeout >= kot.timeout]. *)
Definition timeout_ge (ts : list Bucket) (t : Z) (n : nat) : bool :=
  match ts !! n with
  | Some b => t <=? timeout b
  | None => false
  end.

(** [addKeyTimeout(k, i)] *)
Definition addKeyTimeout (k : iface) (i : nat) (ts : list Bucket)
  : result (list Bucket) :=
  match ts !! i with
  | None => Panic
  | Some b => Ok (<[i := mkTimedData (data b ++ [k]) (timeout b)]> ts)
  end.

(** The [for i:=1;...] loop of [delKeyTimeout]: drop the first occurrence
    of [k], if any. *)
Fixpoint remove_first (k : iface) (keys : list iface) : list iface :=
  match keys with
  | [] => []
  | k' :: rest => if decide (k = k') then rest else k' :: remove_first k rest
  end.

(** [delKeyTimeout(k, i)].  [keys[0]] is read without a length check: an
    empty key list panics. *)
Definition delKeyTimeout (k : iface) (i : nat) (ts : list Bucket)
  : result (list Bucket) :=
  match ts !! i with
  | None => Panic
  | Some b =>
      match data b with
      | [] => Panic
      | k0 :: rest =>
          let keys := if decide (k = k0) then rest else k0 :: remove_first k rest in
          match keys with
          | [] => Ok (take i ts ++ drop (S i) ts)
          | _ :: _ => Ok (<[i := mkTimedData keys (timeout b)]> ts)
          end
      end
  end.

(** The "not found, only for ADD" branch up to the assignment of the fresh
    bucket: [append], right shift with [copy], then [c.timeouts[i] = ...]. *)
Definition insertBucket (i : nat) (t : Z) (ts : list Bucket) : list Bucket :=
  let l := length ts in
  let ts1 := ts ++ [mkTimedData [] 0] in
  let ts2 := if decide (i = l) then ts1
             else take (S i) ts1 ++ drop i (take l ts1) in
  <[i := mkTimedData [] t]> ts2.

(** [i < len(c.timeouts) && c.timeouts[i].timeout == kot.timeout] *)
Definition found (ts : list Bucket) (i : nat) (t : Z) : bool :=
  match ts !! i with
  | Some b => timeout b =? t
  | None => false
  end.

(** One iteration of the loop of [updateTimeoutsFromPendingList]. *)
Definition applyOper (kot : LogRec) (ts : list Bucket) : result (list Bucket) :=
  let ko := data kot in
  let i := sort_Search (length ts) (timeout_ge ts (timeout kot)) in
  if found ts i (timeout kot) then
    match oper ko with
    | DEL => delKeyTimeout (key ko) i ts
    | ADD => addKeyTimeout (key ko) i ts
    end
  else
    match oper ko with
    | ADD => addKeyTimeout (key ko) i (insertBucket i (timeout kot) ts)
    | DEL => Ok ts
    end.

(** The whole loop, over the log taken from the manager. *)
Fixpoint replay (log : list LogRec) (ts : list Bucket) : result (list Bucket) :=
  match log with
  | [] => Ok ts
  | kot :: rest => ts' ← applyOper kot ts; replay rest ts'
  end.

(** [updateTimeoutsFromPendingList]: the log is taken and cleared under the
    lock, then replayed on the ladder, which only the purger touches. *)
Definition updateTimeoutsFromPendingList (c : Cache) : result Cache :=
  let log := operLog (tm c) in
  let c1 := set_tm (set_operLog [] (tm c)) c in
  ts ← replay log (timeouts (tm c1));
  Ok (set_tm (set_timeouts ts (tm c1)) c1).

(** [for _, k := range keys { delete(c.cache.data, k) }] *)
Definition deleteKeys (keys : list iface) (m : gmap iface (TimedData iface))
  : gmap iface (TimedData iface) :=
  foldl (fun m k => delete k m) m keys.

(** The [for len(c.timeouts)>0] loop of [deleteExpiredEntries]. *)
Fixpoint sweep (now : Z) (ts : list Bucket) (m : gmap iface (TimedData iface))
  : list Bucket * gmap iface (TimedData iface) :=
  match ts with
  | [] => ([], m)
  | b :: rest =>
      if now <? timeout b then (ts, m)
      else sweep now rest (deleteKeys (data b) m)
  end.

(** [deleteExpiredEntries(now)] *)
Definition deleteExpiredEntries (now : Z) (c : Cache) : Cache :=
  match timeouts (tm c) with
  | b :: _ =>
      if timeout b <=? now then
        let '(ts, m) := sweep now (timeouts (tm c)) (cdata c) in
        set_tm (set_timeouts ts (tm c)) (set_cdata m c)
      else c
  | [] => c
  end.

(** [purgeAndResetTimer], with [now] the clock value it reads first.
    [purgeTimer.Reset(d)] arms the timer [d] nanoseconds ahead. *)
Definition purgeAndResetTimer (now : Z) (c : Cache) : Cache :=
  let c1 := deleteExpiredEntries now c in
  let t1 := tm c1 in
  let t2 :=
    match timeouts t1 with
    | [] => set_purgeTimer None t1
    | b :: _ =>
        if decide (nextPurgeTime t1 = timeout b) then t1
        else set_purgeTimer (Some (now + wrap64 (timeout b - now))) t1
    end in
  let t3 :=
    match timeouts t2 with
    | [] => set_nextPurgeTime MaxInt64 t2
    | b :: _ =>
        if decide (nextPurgeTime t2 = timeout b) then t2
        else set_nextPurgeTime (timeout b) t2
    end in
  set_tm t3 c1.

(** [handleResched] *)
Definition handleResched (now : Z) (c : Cache) : result Cache :=
  c1 ← updateTimeoutsFromPendingList c;
  Ok (purgeAndResetTimer now c1).

(** What wakes the [select] of the purger loop. *)
Inductive wake : Type :=
  | WResched  (* a receive on [c.resched] completes *)
  | WTimer.   (* a receive on [c.purgeTimer.C] completes *)

(** A receive on [c.resched]: with a token buffered it yields [ok = true]
    and empties the buffer; on a closed, empty channel it yields
    [ok = false]; on an open, empty channel it blocks ([None]). *)
Definition recv_resched (c : Cache) : option (Cache * bool) :=
  let ch := resched (tm c) in
  if buffered ch then
    Some (set_tm (set_resched (mkChan false (closed ch)) (tm c)) c, true)
  else if closed ch then Some (c, false)
  else None.

(** A receive on [c.purgeTimer.C]: ready once an armed timer is due, after
    which the timer is no longer armed. *)
Definition timer_fire (now : Z) (c : Cache) : option Cache :=
  match purgeTimer (tm c) with
  | Some e =>
      if e <=? now then Some (set_tm (set_purgeTimer None (tm c)) c) else None
  | None => None
  end.

(** One iteration of [for ok:=true;ok; { select {...} }].  [None] means
    that the chosen case is not ready (the goroutine stays blocked) or that
    the goroutine has already returned.  [ok = false] ends the loop. *)
Definition purger_iter (w : wake) (now : Z) (c : Cache) : option (result Cache) :=
  if purgerRunning c then
    match w with
    | WResched =>
        match recv_resched c with
        | Some (c1, true) => Some (handleResched now c1)
        | Some (c1, false) => Some (Ok (set_purgerRunning false c1))
        | None => None
        end
    | WTimer =>
        match timer_fire now c with
        | Some c1 => Some (handleResched now c1)
        | None => None
        end
    end
  else None.

(** ** The system as a transition relation

    Client calls and purger sections in any order.  The three sections of
    one purger wake-up ([updateTimeoutsFromPendingList], then the sweep and
    the timer update of [purgeAndResetTimer]) are separate steps, so that
    client calls may fall between them as the locking allows. *)
Inductive step : Cache -> Cache -> Prop :=
  | step_Put k v timeoutMs now c c' :
      Put k v timeoutMs now c = Ok c' -> step c c'
  | step_Remove k c c' v :
      Remove k c = Ok (c', v) -> step c c'
  | step_Close c c' :
      Close c = Ok c' -> step c c'
  | step_replay c c' :
      updateTimeoutsFromPendingList c = Ok c' -> step c c'
  | step_purge now c :
      step c (purgeAndResetTimer now c)
  | step_recv c c' :
      purgerRunning c = true -> recv_resched c = Some (c', true) -> step c c'
  | step_timer now c c' :
      purgerRunning c = true -> timer_fire now c = Some c' -> step c c'
  | step_purger w now c c' :
      purger_iter w now c = Some (Ok c') -> step c c'.

Inductive reachable (args : list Z) : Cache -> Prop :=
  | reach_New : reachable args (New args)
  | reach_step c c' : reachable args c -> step c c' -> reachable args c'.

(** ** Ladder invariant *)

(** The deadlines of the ladder, head first. *)
Definition deadlines (ts : list Bucket) : list Z := timeout <$> ts.

(** No bucket without keys. *)
Definition no_empty_bucket (ts : list Bucket) : Prop :=
  Forall (fun b => data b <> []) ts.

(** Strictly ascending deadlines, and no bucket without keys. *)
Definition ladder_inv (ts : list Bucket) : Prop :=
  StronglySorted Z.lt (deadlines ts) /\ no_empty_bucket ts.

(** The purger goroutine is inside its loop as long as [resched] is open. *)
Definition purger_alive (c : Cache) : Prop :=
  closed (resched (tm c)) = false -> purgerRunning c = true.

(** ** Concrete runs

    Runs of the system used as examples below.  Instants are nanoseconds,
    time-outs milliseconds. *)

(** A wake-up that a run relies on: a run in which it is not ready is
    ill-formed and evaluates to [Panic]. *)
Definition enabled {A : Type} (o : option (result A)) : result A :=
  match o with
  | Some r => r
  | None => Panic
  end.

Definition kA : iface := IStr "a".
Definition kH : iface := IStr "h".
Definition kC : iface := IStr "c".

(** *** A replace that falls between replay and sweep

    ["a"] is stored at instant 0 for 100 ms and scheduled by the purger.
    At its deadline the timer fires and the purger replays the (empty) log;
    before the purger takes the lock again for the sweep, a client replaces
    ["a"] with a fresh 100 ms time-out. *)
Definition race_stored : result Cache :=
  Put kA (IInt 1) 100 0 (New []).

Definition race_scheduled : result Cache :=
  s1 ← race_stored;
  enabled (purger_iter WResched 0 s1).

Definition race_fired : result Cache :=
  s2 ← race_scheduled;
  enabled (Ok <$> timer_fire 100000000 s2).

Definition race_replayed : result Cache :=
  s2' ← race_fired;
  updateTimeoutsFromPendingList s2'.

Definition race_before_sweep : result Cache :=
  s3 ← race_replayed;
  Put kA (IInt 2) 100 100000000 s3.

(** The state held by a result, [New []] when there is none. *)
Definition state_of (r : result Cache) : Cache :=
  match r with
  | Ok c => c
  | Panic => New []
  end.

(** *** The same key stored twice *)
Definition put_twice : result Cache :=
  s1 ← Put kA (IInt 1) 100 0 (New []);
  Put kA (IInt 2) 100 5 s1.

(** The log records that concern key [k]. *)
Definition records_of (k : iface) (log : list LogRec) : list LogRec :=
  filter (fun r => key (data r) = k) log.

(** *** A counter that has lost track of evictions

    ["h"] is stored for a second and keys 1..17 for a millisecond; the
    purger schedules them and evicts the seventeen at their deadline.
    Then ["c"] is stored for two seconds and replaced fifteen times. *)
Fixpoint put_each (keys : list Z) (timeoutMs now : Z) (c : Cache) : result Cache :=
  match keys with
  | [] => Ok c
  | n :: rest =>
      c' ← Put (IInt n) (IInt n) timeoutMs now c;
      put_each rest timeoutMs now c'
  end.

Fixpoint put_repeat (n : nat) (k : iface) (timeoutMs now : Z) (c : Cache)
  : result Cache :=
  match n with
  | O => Ok c
  | S n' =>
      c' ← Put k (IInt 0) timeoutMs now c;
      put_repeat n' k timeoutMs now c'
  end.

Definition drift_first : result Cache :=
  Put kH (IInt 0) 1000 0 (New []).

Definition drift_stored : result Cache :=
  s1 ← drift_first;
  put_each (Z.of_nat <$> seq 1 17) 1 0 s1.

Definition drift_scheduled : result Cache :=
  s2 ← drift_stored;
  enabled (purger_iter WResched 0 s2).

Definition drift_evicted : result Cache :=
  s3 ← drift_scheduled;
  enabled (purger_iter WTimer 1000000 s3).

Definition drift_before_last_put : result Cache :=
  s4 ← drift_evicted;
  put_repeat 16 kC 2000 2000000 s4.

(** *** A deadline that is exactly [MaxInt64] *)
Definition far_now : Z := 1800000000000775807.
Definition far_timeoutMs : Z := 7423372036854.

(** *** A removal before the purger has woken *)
Definition put_unscheduled : result Cache :=
  Put kA (IInt 1) 100 0 (New []).

(** ** Further operations and notions *)

(** [Cache.GetContent()]: the values of the cache as a fresh map; [None] is
    the nil map that the source returns for an empty cache. *)
Definition GetContent (c : Cache) : option (gmap iface iface) :=
  if decide (0 < size (cdata c))%nat then
    Some (map_fold (fun k vt m => <[k := data vt]> m) ∅ (cdata c))
  else None.

(** How many times [k] occurs in a key list. *)
Fixpoint occurrences (k : iface) (keys : list iface) : nat :=
  match keys with
  | [] => 0%nat
  | k' :: rest =>
      if decide (k = k') then S (occurrences k rest) else occurrences k rest
  end.

(** How many times bucket [b] lists [k] for deadline [t]. *)
Definition listed (k : iface) (t : Z) (b : Bucket) : nat :=
  if decide (timeout b = t) then occurrences k (data b) else 0%nat.

(** How many times the ladder lists [k] for deadline [t]. *)
Fixpoint scheduled_count (k : iface) (t : Z) (ts : list Bucket) : nat :=
  match ts with
  | [] => 0%nat
  | b :: rest => (listed k t b + scheduled_count k t rest)%nat
  end.

(** Whether a log record is about key [k] at deadline [t]. *)
Definition concerns (k : iface) (t : Z) (r : LogRec) : bool :=
  bool_decide (key (data r) = k /\ timeout r = t).

(** What one log record does to the number of times [k] is listed for [t]:
    an ADD adds one, a DEL takes one away if there is one. *)
Definition record_effect (k : iface) (t : Z) (n : nat) (r : LogRec) : nat :=
  if concerns k t r then
    match oper (data r) with
    | ADD => S n
    | DEL => Nat.pred n
    end
  else n.

(** The same for a whole log, oldest record first. *)
Definition log_effect (k : iface) (t : Z) (log : list LogRec) (n : nat) : nat :=
  foldl (record_effect k t) n log.

(** The number of times [k] will be listed for [t] once the pending log has
    been replayed. *)
Definition pending_count (k : iface) (t : Z) (c : Cache) : nat :=
  log_effect k t (operLog (tm c)) (scheduled_count k t (timeouts (tm c))).

(** Every entry of the map is, or is about to be, listed at its deadline. *)
Definition live_scheduled (c : Cache) : Prop :=
  forall (k : iface) (e : TimedData iface),
    cdata c !! k = Some e -> (0 < pending_count k (timeout e) c)%nat.

(** The ladder and the log together list exactly the entries of the map,
    each once, at its deadline. *)
Definition schedule_exact (c : Cache) : Prop :=
  forall (k : iface) (t : Z),
    pending_count k t c
    = if decide (timeout <$> cdata c !! k = Some t) then 1%nat else 0%nat.

(** No entry has deadline 0, the value [Put] reads as "no previous entry". *)
Definition no_zero_deadline (c : Cache) : Prop :=
  forall (k : iface) (e : TimedData iface),
    cdata c !! k = Some e -> timeout e <> 0.

(** The deadline [Put] computes. *)
Definition deadline (timeoutMs now : Z) : Z :=
  wrap64 (now + wrap64 (timeoutMs * Millisecond)).

(** The system when no client call falls inside a purger wake-up: client
    calls and whole iterations of the purger loop.  [Put] is taken with a
    deadline other than 0. *)
Inductive astep : Cache -> Cache -> Prop :=
  | astep_Put k v timeoutMs now c c' :
      deadline timeoutMs now <> 0 ->
      Put k v timeoutMs now c = Ok c' -> astep c c'
  | astep_Remove k c c' v :
      Remove k c = Ok (c', v) -> astep c c'
  | astep_Close c c' :
      Close c = Ok c' -> astep c c'
  | astep_purger w now c c' :
      purger_iter w now c = Some (Ok c') -> astep c c'.

Inductive areachable (args : list Z) : Cache -> Prop :=
  | areach_New : areachable args (New args)
  | areach_step c c' : areachable args c -> astep c c' -> areachable args c'.

(** The deadline of the head bucket, [MaxInt64] for an empty ladder. *)
Definition head_deadline (ts : list Bucket) : Z :=
  match ts with
  | [] => MaxInt64
  | b :: _ => timeout b
  end.

(** ** Arithmetic facts *)

Lemma wrap64_id (z : Z) : int64_range z -> wrap64 z = z.
Proof.
  unfold int64_range, wrap64, MaxInt64. intros Hz.
  rewrite Z.mod_small; lia.
Qed.

Lemma wrap64_range (z : Z) : int64_range (wrap64 z).
Proof.
  unfold int64_range, wrap64, MaxInt64.
  pose proof (Z.mod_pos_bound (z + 2 ^ 63) (2 ^ 64)). lia.
Qed.

(** ** Binary search *)

Section Search.
Variable f : nat -> bool.
Variable n : nat.
Hypothesis f_mono : forall a b : nat, (a <= b < n)%nat -> f a = true -> f b = true.

Lemma search_loop_spec (fuel i j : nat) :
  (i <= j <= n)%nat ->
  (j - i <= fuel)%nat ->
  (forall k, (k < i)%nat -> f k = false) ->
  (forall k, (j <= k < n)%nat -> f k = true) ->
  let r := search_loop fuel f i j in
  (r <= n)%nat
  /\ (forall k, (k < r)%nat -> f k = false)
  /\ (forall k, (r <= k < n)%nat -> f k = true).
Proof.
  revert i j. induction fuel as [|fuel IH]; intros i j Hij Hfuel Hlo Hhi;
    cbn [search_loop]; cbv zeta.
  - assert (i = j) by lia. subst j. repeat split; [lia | exact Hlo | exact Hhi].
  - destruct (Nat.ltb_spec i j) as [Hlt | Hge].
    + pose proof (Nat.div_mod_eq (i + j) 2) as Hdm.
      pose proof (Nat.mod_upper_bound (i + j) 2 ltac:(lia)) as Hmod.
      set (h := ((i + j) / 2)%nat) in *.
      assert (i <= h < j)%nat as Hh by lia.
      specialize (IH i h) as IHl. specialize (IH (S h) j) as IHr.
      cbv zeta in IHl, IHr.
      destruct (f h) eqn:Hfh.
      * apply IHl; [lia | lia | exact Hlo |].
        intros k Hk. apply (f_mono h k); [lia | exact Hfh].
      * apply IHr; [lia | lia | | exact Hhi].
        intros k Hk. destruct (f k) eqn:Hfk; [|reflexivity].
        rewrite <- Hfh. symmetry. apply (f_mono k h); [lia | exact Hfk].
    + assert (i = j) by lia. subst j. repeat split; [lia | exact Hlo | exact Hhi].
Qed.

Lemma sort_Search_spec :
  let r := sort_Search n f in
  (r <= n)%nat
  /\ (forall k, (k < r)%nat -> f k = false)
  /\ (forall k, (r <= k < n)%nat -> f k = true).
Proof.
  unfold sort_Search. apply search_loop_spec; try lia; intros k Hk; lia.
Qed.
End Search.

(** ** The ladder under replay *)

Lemma sorted_lookup_lt (l : list Z) (a b : nat) (x y : Z) :
  StronglySorted Z.lt l -> (a < b)%nat ->
  l !! a = Some x -> l !! b = Some y -> x < y.
Proof.
  intros Hs Hab Ha Hb.
  rewrite <- (take_drop b l) in Hs.
  apply StronglySorted_app in Hs as (Hc & _ & _).
  apply Hc.
  - apply list_elem_of_lookup. exists a. rewrite lookup_take_lt; [exact Ha | exact Hab].
  - apply list_elem_of_lookup. exists 0%nat. rewrite lookup_drop.
    rewrite Nat.add_0_r. exact Hb.
Qed.

Lemma timeout_ge_mono (ts : list Bucket) (t : Z) :
  StronglySorted Z.lt (deadlines ts) ->
  forall a b : nat, (a <= b < length ts)%nat ->
    timeout_ge ts t a = true -> timeout_ge ts t b = true.
Proof.
  intros Hs a b Hab. unfold timeout_ge.
  destruct (ts !! a) as [x|] eqn:Ha; [|discriminate].
  destruct (lookup_lt_is_Some_2 ts b ltac:(lia)) as [y Hb]. rewrite Hb.
  intros Hx. apply Z.leb_le in Hx. apply Z.leb_le.
  destruct (decide (a = b)) as [->|Hne]; [congruence|].
  assert (timeout x < timeout y); [|lia].
  apply (sorted_lookup_lt (deadlines ts) a b); [exact Hs | lia | |];
    unfold deadlines; rewrite list_lookup_fmap.
  - rewrite Ha. reflexivity.
  - rewrite Hb. reflexivity.
Qed.

(** On a sorted ladder the search splits it at the first deadline that is
    not below [t]. *)
Lemma search_split (ts : list Bucket) (t : Z) :
  StronglySorted Z.lt (deadlines ts) ->
  let i := sort_Search (length ts) (timeout_ge ts t) in
  (i <= length ts)%nat
  /\ Forall (fun b => timeout b < t) (take i ts)
  /\ Forall (fun b => t <= timeout b) (drop i ts).
Proof.
  intros Hs i.
  destruct (sort_Search_spec (timeout_ge ts t) (length ts) (timeout_ge_mono ts t Hs))
    as (Hle & Hlo & Hhi).
  fold i in Hle, Hlo, Hhi.
  split; [exact Hle|]. split.
  - apply Forall_lookup. intros k b Hk.
    apply lookup_take_Some in Hk as [Hk Hlt].
    specialize (Hlo k Hlt). unfold timeout_ge in Hlo. rewrite Hk in Hlo.
    apply Z.leb_gt in Hlo. exact Hlo.
  - apply Forall_lookup. intros k b Hk.
    rewrite lookup_drop in Hk.
    pose proof (lookup_lt_Some _ _ _ Hk) as Hlt.
    specialize (Hhi (i + k)%nat ltac:(lia)). unfold timeout_ge in Hhi.
    rewrite Hk in Hhi. apply Z.leb_le in Hhi. exact Hhi.
Qed.

(** [append], [copy] and the assignment amount to an insertion at [i]. *)
Lemma insertBucket_eq (i : nat) (t : Z) (ts : list Bucket) :
  (i <= length ts)%nat ->
  insertBucket i t ts = take i ts ++ mkTimedData [] t :: drop i ts.
Proof.
  intros Hi. unfold insertBucket.
  destruct (decide (i = length ts)) as [->|Hne].
  - rewrite firstn_all, drop_all.
    rewrite insert_app_r_alt; [|lia]. rewrite Nat.sub_diag. reflexivity.
  - assert (i < length ts)%nat as Hlt by lia.
    rewrite take_app_le; [|lia].
    rewrite (take_app_le ts _ (length ts)); [|lia]. rewrite firstn_all.
    destruct (lookup_lt_is_Some_2 ts i Hlt) as [b Hb].
    rewrite (take_S_r ts i b Hb).
    rewrite <- app_assoc. simpl.
    rewrite insert_app_r_alt; rewrite length_take; [|lia].
    replace (i - i `min` length ts)%nat with 0%nat by lia.
    reflexivity.
Qed.

Lemma deadlines_insert_same (ts : list Bucket) (i : nat) (b b' : Bucket) :
  ts !! i = Some b -> timeout b' = timeout b ->
  deadlines (<[i := b']> ts) = deadlines ts.
Proof.
  intros Hb Ht. unfold deadlines. rewrite list_fmap_insert.
  apply list_insert_id. rewrite list_lookup_fmap, Hb. simpl. congruence.
Qed.

Lemma sorted_remove (l : list Z) (i : nat) :
  StronglySorted Z.lt l -> StronglySorted Z.lt (take i l ++ drop (S i) l).
Proof.
  intros Hs. rewrite <- (take_drop i l) in Hs.
  destruct (l !! i) as [x|] eqn:Hx.
  - rewrite (drop_S l x i Hx) in Hs.
    apply StronglySorted_app in Hs as (Hc & Hl & Hr).
    apply StronglySorted_cons in Hr as [_ Hr].
    apply StronglySorted_app. repeat split; [|exact Hl|exact Hr].
    intros x1 x2 H1 H2. apply Hc; [exact H1|]. right. exact H2.
  - apply lookup_ge_None in Hx.
    rewrite (drop_ge l (S i)); [|lia]. rewrite drop_ge in Hs; [|lia].
    exact Hs.
Qed.

Lemma sorted_insert (l : list Z) (i : nat) (t : Z) :
  StronglySorted Z.lt l ->
  Forall (fun x => x < t) (take i l) ->
  Forall (fun x => t < x) (drop i l) ->
  StronglySorted Z.lt (take i l ++ t :: drop i l).
Proof.
  intros Hs Hlo Hhi. rewrite <- (take_drop i l) in Hs.
  apply StronglySorted_app in Hs as (Hc & Hl & Hr).
  apply StronglySorted_app. repeat split; [|exact Hl|].
  - intros x1 x2 H1 H2. apply elem_of_cons in H2 as [->|H2].
    + rewrite Forall_forall in Hlo. apply Hlo. exact H1.
    + apply Hc; assumption.
  - apply StronglySorted_cons. split; [exact Hhi | exact Hr].
Qed.

(** When the search does not land on a bucket at [t], every bucket from the
    landing index on is strictly later than [t]. *)
Lemma not_found_later (ts : list Bucket) (t : Z) (i : nat) :
  StronglySorted Z.lt (deadlines ts) ->
  Forall (fun b => t <= timeout b) (drop i ts) ->
  found ts i t = false ->
  Forall (fun x => t < x) (drop i (deadlines ts)).
Proof.
  intros Hs Hge Hnf. unfold found in Hnf.
  rewrite <- (take_drop i (deadlines ts)) in Hs.
  apply StronglySorted_app_1_r in Hs.
  unfold deadlines in *. rewrite <- fmap_drop in *.
  destruct (ts !! i) as [b|] eqn:Hb.
  - rewrite (drop_S ts b i Hb) in *. simpl in *.
    apply StronglySorted_cons in Hs as [Hall _].
    apply Forall_cons in Hge as [Hb0 _].
    apply Z.eqb_neq in Hnf.
    constructor; [lia|].
    eapply Forall_impl; [exact Hall|]. simpl. intros x Hx. lia.
  - apply lookup_ge_None in Hb. rewrite drop_ge; [constructor | lia].
Qed.

Lemma addKeyTimeout_inv (k : iface) (i : nat) (ts : list Bucket) :
  (i < length ts)%nat -> ladder_inv ts ->
  exists ts', addKeyTimeout k i ts = Ok ts' /\ ladder_inv ts'.
Proof.
  intros Hi [Hs Hne]. unfold addKeyTimeout.
  destruct (lookup_lt_is_Some_2 ts i Hi) as [b Hb]. rewrite Hb.
  eexists; split; [reflexivity|]. split.
  - rewrite (deadlines_insert_same ts i b); [exact Hs | exact Hb | reflexivity].
  - apply Forall_insert; [exact Hne|]. simpl. intros Heq.
    apply app_eq_nil in Heq as [_ Heq]. discriminate.
Qed.

Lemma delKeyTimeout_inv (k : iface) (i : nat) (ts : list Bucket) :
  (i < length ts)%nat -> ladder_inv ts ->
  exists ts', delKeyTimeout k i ts = Ok ts' /\ ladder_inv ts'.
Proof.
  intros Hi [Hs Hne]. unfold delKeyTimeout.
  destruct (lookup_lt_is_Some_2 ts i Hi) as [b Hb]. rewrite Hb.
  pose proof (Forall_lookup_1 _ _ _ _ Hne Hb) as Hkeys. simpl in Hkeys.
  destruct (data b) as [|k0 rest]; [contradiction|].
  destruct (if decide (k = k0) then rest else k0 :: remove_first k rest)
    as [|k1 keys'].
  - eexists; split; [reflexivity|]. split.
    + unfold deadlines. rewrite fmap_app, fmap_take, fmap_drop.
      apply sorted_remove. exact Hs.
    + unfold no_empty_bucket. apply Forall_app. split.
      * apply Forall_take. exact Hne.
      * apply Forall_drop. exact Hne.
  - eexists; split; [reflexivity|]. split.
    + rewrite (deadlines_insert_same ts i b); [exact Hs | exact Hb | reflexivity].
    + apply Forall_insert; [exact Hne|]. simpl. discriminate.
Qed.

(** One log record keeps the ladder invariant, and never panics. *)
Lemma applyOper_inv (kot : LogRec) (ts : list Bucket) :
  ladder_inv ts ->
  exists ts', applyOper kot ts = Ok ts' /\ ladder_inv ts'.
Proof.
  intros Hinv. pose proof Hinv as [Hs Hne]. unfold applyOper.
  destruct (search_split ts (timeout kot) Hs) as (Hle & Hlo & Hhi).
  set (i := sort_Search (length ts) (timeout_ge ts (timeout kot))) in *.
  destruct (found ts i (timeout kot)) eqn:Hf.
  - assert (i < length ts)%nat as Hlt.
    { unfold found in Hf. destruct (ts !! i) eqn:Hb; [|discriminate].
      eapply lookup_lt_Some. exact Hb. }
    destruct (oper (data kot)).
    + apply addKeyTimeout_inv; assumption.
    + apply delKeyTimeout_inv; assumption.
  - destruct (oper (data kot)).
    + rewrite insertBucket_eq by exact Hle.
      unfold addKeyTimeout.
      rewrite list_lookup_middle; [|rewrite length_take; lia].
      eexists; split; [reflexivity|].
      rewrite insert_app_r_alt; rewrite length_take; [|lia].
      replace (i - i `min` length ts)%nat with 0%nat by lia. simpl.
      split.
      * unfold deadlines. rewrite fmap_app, fmap_cons, fmap_take, fmap_drop. simpl.
        apply sorted_insert; [exact Hs | |].
        -- rewrite <- fmap_take. apply Forall_fmap.
           eapply Forall_impl; [exact Hlo|]. intros b Hb. exact Hb.
        -- apply not_found_later; assumption.
      * unfold no_empty_bucket. apply Forall_app. split.
        -- apply Forall_take. exact Hne.
        -- constructor; [simpl; discriminate|]. apply Forall_drop. exact Hne.
    + eexists; split; [reflexivity | exact Hinv].
Qed.

Lemma replay_inv (log : list LogRec) (ts : list Bucket) :
  ladder_inv ts ->
  exists ts', replay log ts = Ok ts' /\ ladder_inv ts'.
Proof.
  revert ts. induction log as [|kot log IH]; intros ts Hinv; simpl.
  - eexists; split; [reflexivity | exact Hinv].
  - destruct (applyOper_inv kot ts Hinv) as (ts1 & -> & Hinv1). simpl.
    apply IH. exact Hinv1.
Qed.

(** ** The ladder under the expiry sweep *)

Lemma sweep_suffix (now : Z) (ts : list Bucket) (m : gmap iface (TimedData iface)) :
  exists n, (sweep now ts m).1 = drop n ts.
Proof.
  revert m. induction ts as [|b ts IH]; intros m; simpl.
  - exists 0%nat. reflexivity.
  - destruct (now <? timeout b).
    + exists 0%nat. reflexivity.
    + destruct (IH (deleteKeys (data b) m)) as [n Hn]. exists (S n). exact Hn.
Qed.

Lemma ladder_inv_drop (n : nat) (ts : list Bucket) :
  ladder_inv ts -> ladder_inv (drop n ts).
Proof.
  intros [Hs Hne]. split.
  - unfold deadlines in *. rewrite fmap_drop.
    rewrite <- (take_drop n (timeout <$> ts)) in Hs.
    eapply StronglySorted_app_1_r. exact Hs.
  - apply Forall_drop. exact Hne.
Qed.

Lemma deleteExpiredEntries_timeouts (now : Z) (c : Cache) :
  exists n, timeouts (tm (deleteExpiredEntries now c)) = drop n (timeouts (tm c)).
Proof.
  unfold deleteExpiredEntries.
  destruct (timeouts (tm c)) as [|b ts] eqn:Hts.
  - exists 0%nat. rewrite Hts. reflexivity.
  - destruct (timeout b <=? now).
    + destruct (sweep_suffix now (b :: ts) (cdata c)) as [n Hn].
      destruct (sweep now (b :: ts) (cdata c)) as [ts' m]. simpl in *.
      exists n. exact Hn.
    + exists 0%nat. rewrite Hts. reflexivity.
Qed.

Lemma deleteKeys_lookup (keys : list iface) (m : gmap iface (TimedData iface)) (k : iface) :
  deleteKeys keys m !! k = if decide (k ∈ keys) then None else m !! k.
Proof.
  unfold deleteKeys. revert m. induction keys as [|k0 keys IH]; intros m; simpl.
  - destruct (decide (k ∈ [])) as [Hin|_]; [|reflexivity].
    apply elem_of_nil in Hin. contradiction.
  - rewrite IH. destruct (decide (k ∈ keys)) as [Hin|Hnin].
    + rewrite decide_True; [reflexivity | right; exact Hin].
    + destruct (decide (k = k0)) as [->|Hne].
      * rewrite lookup_delete_eq. rewrite decide_True; [reflexivity | left].
      * rewrite lookup_delete_ne by congruence.
        rewrite decide_False; [reflexivity|].
        intros Hin. apply elem_of_cons in Hin as [?|?]; contradiction.
Qed.

Lemma sweep_lookup_None (now : Z) (ts : list Bucket)
    (m : gmap iface (TimedData iface)) (k : iface) :
  m !! k = None -> (sweep now ts m).2 !! k = None.
Proof.
  revert m. induction ts as [|b ts IH]; intros m Hm; simpl; [exact Hm|].
  destruct (now <? timeout b); [exact Hm|].
  apply IH. rewrite deleteKeys_lookup. destruct (decide (k ∈ data b)); [reflexivity | exact Hm].
Qed.

Lemma sweep_deleted (now : Z) (ts : list Bucket)
    (m : gmap iface (TimedData iface)) (b : Bucket) (k : iface) :
  StronglySorted Z.lt (deadlines ts) ->
  b ∈ ts -> timeout b <= now -> k ∈ data b ->
  (sweep now ts m).2 !! k = None.
Proof.
  revert m. induction ts as [|b0 ts IH]; intros m Hs Hb Hexp Hk.
  - apply elem_of_nil in Hb. contradiction.
  - unfold deadlines in Hs. rewrite fmap_cons in Hs.
    apply StronglySorted_cons in Hs as [Hall Hs]. simpl.
    apply elem_of_cons in Hb as [->|Hb].
    + destruct (Z.ltb_spec now (timeout b0)) as [Hlt|_]; [lia|].
      apply sweep_lookup_None. rewrite deleteKeys_lookup.
      rewrite decide_True; [reflexivity | exact Hk].
    + assert (timeout b0 < timeout b) as Hlt.
      { rewrite Forall_forall in Hall. apply Hall.
        apply list_elem_of_fmap. exists b. split; [reflexivity | exact Hb]. }
      destruct (Z.ltb_spec now (timeout b0)) as [Hlt'|_]; [lia|].
      apply IH; assumption.
Qed.

Lemma sweep_kept (now : Z) (ts : list Bucket)
    (m : gmap iface (TimedData iface)) (k : iface) :
  (forall b : Bucket, b ∈ ts -> timeout b <= now -> k ∉ data b) ->
  (sweep now ts m).2 !! k = m !! k.
Proof.
  revert m. induction ts as [|b0 ts IH]; intros m Hout; simpl; [reflexivity|].
  destruct (Z.ltb_spec now (timeout b0)) as [Hlt|Hge]; [reflexivity|].
  rewrite IH.
  - rewrite deleteKeys_lookup. rewrite decide_False; [reflexivity|].
    apply Hout; [left | lia].
  - intros b Hb. apply Hout. right. exact Hb.
Qed.

Lemma deleteExpiredEntries_cdata (now : Z) (c : Cache) :
  cdata (deleteExpiredEntries now c) = (sweep now (timeouts (tm c)) (cdata c)).2.
Proof.
  unfold deleteExpiredEntries.
  destruct (timeouts (tm c)) as [|b ts]; [reflexivity|].
  destruct (Z.leb_spec (timeout b) now) as [Hle|Hgt].
  - destruct (sweep now (b :: ts) (cdata c)) as [ts' m]. reflexivity.
  - simpl. destruct (Z.ltb_spec now (timeout b)); [reflexivity | lia].
Qed.

(** ** The expiry sweep and the store *)

(** What the sweep does to the store, as written: it deletes the entry of
    every key listed in a bucket whose deadline has passed, without reading
    the deadline the store records for that key; the entry of a key that no
    such bucket lists is left as it is. *)
Theorem sweep_deletes_listed_keys (now : Z) (c : Cache) (k : iface) :
  StronglySorted Z.lt (deadlines (timeouts (tm c))) ->
  ((exists b : Bucket, b ∈ timeouts (tm c) /\ timeout b <= now /\ k ∈ data b) ->
     cdata (deleteExpiredEntries now c) !! k = None)
  /\ ((forall b : Bucket, b ∈ timeouts (tm c) -> timeout b <= now -> k ∉ data b) ->
     cdata (deleteExpiredEntries now c) !! k = cdata c !! k).
Proof.
  intros Hs. rewrite deleteExpiredEntries_cdata. split.
  - intros (b & Hb & Hexp & Hk). eapply sweep_deleted; eassumption.
  - intros Hout. apply sweep_kept. exact Hout.
Qed.

(** ** What each step leaves alone *)

Lemma appendAddOper_frame (k : iface) (oTo nTo : Z) (c : TimeoutManager) :
  let c' := (appendAddOper k oTo nTo c).1 in
  timeouts c' = timeouts c /\ resched c' = resched c
  /\ nextPurgeTime c' = nextPurgeTime c /\ purgeTimer c' = purgeTimer c
  /\ pendingRatio c' = pendingRatio c /\ pendingMax c' = pendingMax c.
Proof.
  unfold appendAddOper. repeat case_match; simpl; repeat split; reflexivity.
Qed.

Lemma appendDelOper_frame (k : iface) (to : Z) (c : TimeoutManager) :
  let c' := (appendDelOper k to c).1 in
  timeouts c' = timeouts c /\ resched c' = resched c
  /\ nextPurgeTime c' = nextPurgeTime c /\ purgeTimer c' = purgeTimer c
  /\ pendingRatio c' = pendingRatio c /\ pendingMax c' = pendingMax c.
Proof.
  unfold appendDelOper. repeat case_match; simpl; repeat split; reflexivity.
Qed.

Lemma Put_frame (k v : iface) (timeoutMs now : Z) (c c' : Cache) :
  Put k v timeoutMs now c = Ok c' ->
  timeouts (tm c') = timeouts (tm c)
  /\ purgerRunning c' = purgerRunning c
  /\ closed (resched (tm c')) = closed (resched (tm c)).
Proof.
  unfold Put, Put_locked. intros H.
  destruct (timeoutMs <=? 0); [injection H as <-; auto|].
  set (ent := match cdata c !! k with Some e => e | None => _ end) in H.
  pose proof (appendAddOper_frame k (timeout ent)
                (wrap64 (now + wrap64 (timeoutMs * Millisecond)))
                (tm (set_cdata (<[k:=mkTimedData v (wrap64 (now + wrap64 (timeoutMs * Millisecond)))]> (cdata c)) c)))
    as (Hts & Hch & _).
  destruct (appendAddOper _ _ _ _) as [t need]. simpl in Hts, Hch.
  destruct need.
  - unfold notifyResched in H. simpl in H. rewrite Hch in H.
    destruct (closed (resched (tm c))) eqn:Hcl; [discriminate|].
    injection H as <-. simpl. auto.
  - injection H as <-. simpl. rewrite Hch. auto.
Qed.

Lemma Remove_frame (k : iface) (c c' : Cache) (v : iface) :
  Remove k c = Ok (c', v) ->
  timeouts (tm c') = timeouts (tm c)
  /\ purgerRunning c' = purgerRunning c
  /\ closed (resched (tm c')) = closed (resched (tm c)).
Proof.
  unfold Remove, Remove_locked. intros H.
  destruct (cdata c !! k) as [vt|]; [|injection H as <- _; auto].
  pose proof (appendDelOper_frame k (timeout vt) (tm (set_cdata (delete k (cdata c)) c)))
    as (Hts & Hch & _).
  destruct (appendDelOper _ _ _) as [t need]. simpl in Hts, Hch.
  destruct need.
  - unfold notifyResched in H. simpl in H. rewrite Hch in H.
    destruct (closed (resched (tm c))) eqn:Hcl; [discriminate|].
    injection H as <- _. simpl. auto.
  - injection H as <- _. simpl. rewrite Hch. auto.
Qed.

Lemma Close_frame (c c' : Cache) :
  Close c = Ok c' ->
  timeouts (tm c') = timeouts (tm c)
  /\ purgerRunning c' = purgerRunning c
  /\ closed (resched (tm c')) = true.
Proof.
  unfold Close, tmClose. simpl.
  destruct (closed (resched (tm c))); [discriminate|].
  intros H. injection H as <-. simpl. auto.
Qed.

Lemma updateTimeoutsFromPendingList_frame (c c' : Cache) :
  updateTimeoutsFromPendingList c = Ok c' ->
  replay (operLog (tm c)) (timeouts (tm c)) = Ok (timeouts (tm c'))
  /\ cdata c' = cdata c
  /\ purgerRunning c' = purgerRunning c
  /\ resched (tm c') = resched (tm c).
Proof.
  unfold updateTimeoutsFromPendingList. simpl.
  destruct (replay (operLog (tm c)) (timeouts (tm c))) as [ts|]; [|discriminate].
  intros H. injection H as <-. simpl. auto.
Qed.

Lemma deleteExpiredEntries_frame (now : Z) (c : Cache) :
  purgerRunning (deleteExpiredEntries now c) = purgerRunning c
  /\ resched (tm (deleteExpiredEntries now c)) = resched (tm c).
Proof.
  unfold deleteExpiredEntries. repeat case_match; simpl; auto.
Qed.

Lemma purgeAndResetTimer_frame (now : Z) (c : Cache) :
  timeouts (tm (purgeAndResetTimer now c)) = timeouts (tm (deleteExpiredEntries now c))
  /\ purgerRunning (purgeAndResetTimer now c) = purgerRunning c
  /\ resched (tm (purgeAndResetTimer now c)) = resched (tm c).
Proof.
  pose proof (deleteExpiredEntries_frame now c) as [Hr Hch].
  unfold purgeAndResetTimer. repeat case_match; simpl in *; auto.
Qed.

Lemma handleResched_frame (now : Z) (c c' : Cache) :
  handleResched now c = Ok c' ->
  purgerRunning c' = purgerRunning c /\ resched (tm c') = resched (tm c).
Proof.
  unfold handleResched. intros H.
  destruct (updateTimeoutsFromPendingList c) as [c1|] eqn:H1; [|discriminate].
  injection H as <-.
  apply updateTimeoutsFromPendingList_frame in H1 as (_ & _ & Hr & Hch).
  pose proof (purgeAndResetTimer_frame now c1) as (_ & Hr' & Hch').
  split; congruence.
Qed.

(** ** Invariants of every reachable state *)

Lemma updateTimeoutsFromPendingList_inv (c : Cache) :
  ladder_inv (timeouts (tm c)) ->
  exists c', updateTimeoutsFromPendingList c = Ok c' /\ ladder_inv (timeouts (tm c')).
Proof.
  intros Hinv. unfold updateTimeoutsFromPendingList. simpl.
  destruct (replay_inv (operLog (tm c)) (timeouts (tm c)) Hinv) as (ts & -> & Hts).
  eexists; split; [reflexivity | exact Hts].
Qed.

Lemma deleteExpiredEntries_inv (now : Z) (c : Cache) :
  ladder_inv (timeouts (tm c)) ->
  ladder_inv (timeouts (tm (deleteExpiredEntries now c))).
Proof.
  intros Hinv. destruct (deleteExpiredEntries_timeouts now c) as [n ->].
  apply ladder_inv_drop. exact Hinv.
Qed.

Lemma handleResched_inv (now : Z) (c c' : Cache) :
  ladder_inv (timeouts (tm c)) ->
  handleResched now c = Ok c' -> ladder_inv (timeouts (tm c')).
Proof.
  intros Hinv. unfold handleResched.
  destruct (updateTimeoutsFromPendingList_inv c Hinv) as (c1 & -> & H1). simpl.
  intros H. injection H as <-.
  destruct (purgeAndResetTimer_frame now c1) as (-> & _).
  apply deleteExpiredEntries_inv. exact H1.
Qed.

Lemma recv_resched_frame (c c' : Cache) (ok : bool) :
  recv_resched c = Some (c', ok) ->
  timeouts (tm c') = timeouts (tm c)
  /\ purgerRunning c' = purgerRunning c
  /\ closed (resched (tm c')) = closed (resched (tm c))
  /\ (ok = false -> closed (resched (tm c)) = true).
Proof.
  unfold recv_resched. intros H.
  destruct (buffered (resched (tm c))).
  - injection H as <- <-. simpl. repeat split; auto. discriminate.
  - destruct (closed (resched (tm c))) eqn:Hcl; [|discriminate].
    injection H as <- <-. auto.
Qed.

Lemma timer_fire_frame (now : Z) (c c' : Cache) :
  timer_fire now c = Some c' ->
  timeouts (tm c') = timeouts (tm c)
  /\ purgerRunning c' = purgerRunning c
  /\ resched (tm c') = resched (tm c).
Proof.
  unfold timer_fire. intros H.
  destruct (purgeTimer (tm c)) as [e|]; [|discriminate].
  destruct (e <=? now); [|discriminate].
  injection H as <-. simpl. auto.
Qed.

Lemma step_ladder_inv (c c' : Cache) :
  step c c' -> ladder_inv (timeouts (tm c)) -> ladder_inv (timeouts (tm c')).
Proof.
  intros Hstep Hinv. destruct Hstep as
    [k v t now c c' H | k c c' v H | c c' H | c c' H | now c
    | c c' Hrun H | now c c' Hrun H | w now c c' H].
  - apply Put_frame in H as (-> & _). exact Hinv.
  - apply Remove_frame in H as (-> & _). exact Hinv.
  - apply Close_frame in H as (-> & _). exact Hinv.
  - destruct (updateTimeoutsFromPendingList_inv c Hinv) as (c1 & H1 & Hinv1).
    congruence.
  - destruct (purgeAndResetTimer_frame now c) as (-> & _).
    apply deleteExpiredEntries_inv. exact Hinv.
  - apply recv_resched_frame in H as (-> & _). exact Hinv.
  - apply timer_fire_frame in H as (-> & _). exact Hinv.
  - unfold purger_iter in H. destruct (purgerRunning c); [|discriminate].
    destruct w.
    + destruct (recv_resched c) as [[c1 ok]|] eqn:Hrecv; [|discriminate].
      apply recv_resched_frame in Hrecv as (Hts & _).
      destruct ok.
      * injection H as H. eapply handleResched_inv; [|exact H]. rewrite Hts. exact Hinv.
      * injection H as <-. simpl. rewrite Hts. exact Hinv.
    + destruct (timer_fire now c) as [c1|] eqn:Hfire; [|discriminate].
      apply timer_fire_frame in Hfire as (Hts & _).
      injection H as H. eapply handleResched_inv; [|exact H]. rewrite Hts. exact Hinv.
Qed.

Lemma reachable_ladder_inv (args : list Z) (c : Cache) :
  reachable args c -> ladder_inv (timeouts (tm c)).
Proof.
  induction 1 as [|c c' _ IH Hstep].
  - split; constructor.
  - eapply step_ladder_inv; eassumption.
Qed.

Lemma step_purger_alive (c c' : Cache) :
  step c c' -> purger_alive c -> purger_alive c'.
Proof.
  unfold purger_alive. intros Hstep Hinv. destruct Hstep as
    [k v t now c c' H | k c c' v H | c c' H | c c' H | now c
    | c c' Hrun H | now c c' Hrun H | w now c c' H].
  - apply Put_frame in H as (_ & -> & ->). exact Hinv.
  - apply Remove_frame in H as (_ & -> & ->). exact Hinv.
  - apply Close_frame in H as (_ & _ & ->). discriminate.
  - apply updateTimeoutsFromPendingList_frame in H as (_ & _ & -> & ->). exact Hinv.
  - destruct (purgeAndResetTimer_frame now c) as (_ & -> & ->). exact Hinv.
  - apply recv_resched_frame in H as (_ & -> & -> & _). exact Hinv.
  - apply timer_fire_frame in H as (_ & -> & ->). exact Hinv.
  - unfold purger_iter in H. destruct (purgerRunning c) eqn:Hrun; [|discriminate].
    destruct w.
    + destruct (recv_resched c) as [[c1 ok]|] eqn:Hrecv; [|discriminate].
      apply recv_resched_frame in Hrecv as (_ & Hr & Hcl & Hok).
      destruct ok.
      * injection H as H. apply handleResched_frame in H as (-> & ->). congruence.
      * injection H as <-. simpl. intros Hopen. rewrite Hcl in Hopen.
        rewrite Hok in Hopen; [discriminate | reflexivity].
    + destruct (timer_fire now c) as [c1|] eqn:Hfire; [|discriminate].
      apply timer_fire_frame in Hfire as (_ & Hr & Hch).
      injection H as H. apply handleResched_frame in H as (-> & ->). congruence.
Qed.

Lemma reachable_purger_alive (args : list Z) (c : Cache) :
  reachable args c -> purger_alive c.
Proof.
  induction 1 as [|c c' _ IH Hstep].
  - intros _. reflexivity.
  - eapply step_purger_alive; eassumption.
Qed.

(** ** The concrete runs are runs of the system *)

Lemma reach_Put (args : list Z) (k v : iface) (timeoutMs now : Z) (c c' : Cache) :
  reachable args c -> Put k v timeoutMs now c = Ok c' -> reachable args c'.
Proof. intros Hc H. eapply reach_step; [exact Hc | eapply step_Put; exact H]. Qed.

Lemma reach_purger (args : list Z) (w : wake) (now : Z) (c c' : Cache) :
  reachable args c -> purger_iter w now c = Some (Ok c') -> reachable args c'.
Proof. intros Hc H. eapply reach_step; [exact Hc | eapply step_purger; exact H]. Qed.

Lemma reach_put_each (args : list Z) (keys : list Z) (timeoutMs now : Z) (c c' : Cache) :
  reachable args c -> put_each keys timeoutMs now c = Ok c' -> reachable args c'.
Proof.
  revert c. induction keys as [|n keys IH]; intros c Hc H; simpl in H.
  - injection H as <-. exact Hc.
  - destruct (Put (IInt n) (IInt n) timeoutMs now c) as [c1|] eqn:H1; [|discriminate].
    simpl in H. eapply IH; [|exact H]. eapply reach_Put; eassumption.
Qed.

Lemma reach_put_repeat (args : list Z) (n : nat) (k : iface) (timeoutMs now : Z)
    (c c' : Cache) :
  reachable args c -> put_repeat n k timeoutMs now c = Ok c' -> reachable args c'.
Proof.
  revert c. induction n as [|n IH]; intros c Hc H; simpl in H.
  - injection H as <-. exact Hc.
  - destruct (Put k (IInt 0) timeoutMs now c) as [c1|] eqn:H1; [|discriminate].
    simpl in H. eapply IH; [|exact H]. eapply reach_Put; eassumption.
Qed.

Lemma race_reachable : reachable [] (state_of race_before_sweep).
Proof.
  assert (reachable [] (state_of race_stored)) as H1.
  { apply (reach_Put [] kA (IInt 1) 100 0 (New [])); [apply reach_New|].
    vm_compute. reflexivity. }
  assert (reachable [] (state_of race_scheduled)) as H2.
  { apply (reach_purger [] WResched 0 (state_of race_stored)); [exact H1|].
    vm_compute. reflexivity. }
  assert (reachable [] (state_of race_fired)) as H3.
  { apply (reach_step [] (state_of race_scheduled)); [exact H2|].
    apply (step_timer 100000000); vm_compute; reflexivity. }
  assert (reachable [] (state_of race_replayed)) as H4.
  { apply (reach_step [] (state_of race_fired)); [exact H3|].
    apply step_replay. vm_compute. reflexivity. }
  apply (reach_Put [] kA (IInt 2) 100 100000000 (state_of race_replayed)); [exact H4|].
  vm_compute. reflexivity.
Qed.

Lemma drift_reachable : reachable [] (state_of drift_before_last_put).
Proof.
  assert (reachable [] (state_of drift_first)) as H0.
  { apply (reach_Put [] kH (IInt 0) 1000 0 (New [])); [apply reach_New|].
    vm_compute. reflexivity. }
  assert (reachable [] (state_of drift_stored)) as H1.
  { apply (reach_put_each [] (Z.of_nat <$> seq 1 17) 1 0 (state_of drift_first));
      [exact H0|].
    vm_compute. reflexivity. }
  assert (reachable [] (state_of drift_scheduled)) as H2.
  { apply (reach_purger [] WResched 0 (state_of drift_stored)); [exact H1|].
    vm_compute. reflexivity. }
  assert (reachable [] (state_of drift_evicted)) as H3.
  { apply (reach_purger [] WTimer 1000000 (state_of drift_scheduled)); [exact H2|].
    vm_compute. reflexivity. }
  apply (reach_put_repeat [] 16 kC 2000 2000000 (state_of drift_evicted)); [exact H3|].
  vm_compute. reflexivity.
Qed.

(** ** C1: the expiry sweep *)

(** The same at the state of the replace run, where the head bucket lists
    ["a"] with a deadline that has passed. *)
Lemma sweep_deletes_listed_keys_witness :
  StronglySorted Z.lt (deadlines (timeouts (tm (state_of race_before_sweep))))
  /\ cdata (deleteExpiredEntries 100000000 (state_of race_before_sweep)) !! kA = None.
Proof.
  assert (StronglySorted Z.lt (deadlines (timeouts (tm (state_of race_before_sweep)))))
    as Hs by (vm_compute; repeat constructor).
  split; [exact Hs|].
  apply (proj1 (sweep_deletes_listed_keys 100000000 (state_of race_before_sweep) kA Hs)).
  exists (mkTimedData [kA] 100000000). split; [|split].
  - vm_compute. left.
  - simpl. lia.
  - left.
Defined.

(** C1: the code at the failing input.  The sweep should delete the entry
    of a key listed in an expired bucket only if the entry's deadline is
    the bucket's.  In the replace run the store holds ["a"] with deadline
    200 ms, stored at instant 100 ms for 100 ms, while the head bucket,
    with deadline 100 ms, still lists ["a"]; the sweep at 100 ms deletes
    the entry although the two deadlines differ: the entry just stored is
    evicted 100 ms early. *)
Lemma sweep_evicts_replaced_entry :
  exists c : Cache,
    race_before_sweep = Ok c
    /\ reachable [] c
    /\ timeouts (tm c) = [mkTimedData [kA] 100000000]
    /\ cdata c !! kA = Some (mkTimedData (IInt 2) 200000000)
    /\ cdata (deleteExpiredEntries 100000000 c) !! kA = None.
Proof.
  exists (state_of race_before_sweep).
  split; [vm_compute; reflexivity|].
  split; [exact race_reachable|].
  split; [vm_compute; reflexivity|].
  split; vm_compute; reflexivity.
Qed.

(** ** C2: the pending-operation log *)

(** C2 (as the code has it).  [appendAddOper] appends one ADD record when
    the old deadline is 0 and a DEL record followed by an ADD record
    otherwise; [appendDelOper] appends one DEL record.  Neither looks at,
    alters or drops a record already in the log. *)
Theorem append_opers_extend_log (k : iface) (oTo nTo to : Z) (c : TimeoutManager) :
  operLog (appendAddOper k oTo nTo c).1
    = operLog c
      ++ (if oTo =? 0 then [] else [mkTimedData (mkKeyOper k DEL) oTo])
      ++ [mkTimedData (mkKeyOper k ADD) nTo]
  /\ operLog (appendDelOper k to c).1
    = operLog c ++ [mkTimedData (mkKeyOper k DEL) to].
Proof.
  unfold appendAddOper, appendDelOper. split.
  - destruct (oTo =? 0); repeat case_match; simpl;
      rewrite <- ?app_assoc; reflexivity.
  - repeat case_match; reflexivity.
Qed.

(** C2 (as stated) fails.  Two [Put]s of the same key, with no purger
    wake-up in between, leave three records for that key in the log. *)
Lemma log_holds_three_records_of_one_key :
  exists c : Cache,
    put_twice = Ok c
    /\ reachable [] c
    /\ records_of kA (operLog (tm c))
       = [mkTimedData (mkKeyOper kA ADD) 100000000;
          mkTimedData (mkKeyOper kA DEL) 100000000;
          mkTimedData (mkKeyOper kA ADD) 100000005].
Proof.
  exists (state_of put_twice).
  split; [vm_compute; reflexivity|]. split.
  - apply (reach_Put [] kA (IInt 2) 100 5 (state_of race_stored)).
    + apply (reach_Put [] kA (IInt 1) 100 0 (New [])); [apply reach_New|].
      vm_compute. reflexivity.
    + vm_compute. reflexivity.
  - vm_compute. reflexivity.
Qed.

(** ** C3: the bound on the log *)

Lemma pendingLimit_max (c : TimeoutManager) :
  pendingLimit c = Z.max (pendingMax c) (wrap64 (pendingRatio c * cacheSize c)).
Proof.
  unfold pendingLimit.
  destruct (Z.ltb_spec (wrap64 (pendingRatio c * cacheSize c)) (pendingMax c)); lia.
Qed.

(** What does hold when no signal is asked for: the log is within the limit
    computed from the manager's own counter. *)
Lemma quiet_append_within_pendingLimit (k : iface) (oTo nTo to : Z) (c : TimeoutManager) :
  ((appendAddOper k oTo nTo c).2 = false ->
     len (operLog (appendAddOper k oTo nTo c).1)
       <= pendingLimit (appendAddOper k oTo nTo c).1)
  /\ ((appendDelOper k to c).2 = false ->
     len (operLog (appendDelOper k to c).1)
       <= pendingLimit (appendDelOper k to c).1).
Proof.
  unfold appendAddOper, appendDelOper. split.
  - destruct (_ || _ || _) eqn:Hb; simpl; [discriminate|]. intros _.
    apply orb_false_iff in Hb as [_ Hb]. apply Z.ltb_ge in Hb. exact Hb.
  - destruct (_ || _) eqn:Hb; simpl; [discriminate|]. intros _.
    apply orb_false_iff in Hb as [_ Hb]. apply Z.ltb_ge in Hb. exact Hb.
Qed.

(** C3: the code at the failing input.  After the purger has evicted
    seventeen entries, [cacheSize] still counts them.  The last [Put] of
    the run asks for no signal, with 33 records in the log and 2 entries in
    the map: more than [max(32, 2 * 2)]. *)
Theorem cacheSize_ignores_evictions :
  exists c c' : Cache,
    drift_before_last_put = Ok c
    /\ reachable [] c
    /\ Put_locked kC (IInt 0) 2000 2000000 c = (c', false)
    /\ Put kC (IInt 0) 2000 2000000 c = Ok c'
    /\ Size c' = 2
    /\ cacheSize (tm c') = 19
    /\ len (operLog (tm c')) = 33
    /\ pendingLimit (tm c') = 38
    /\ Z.max (pendingMax (tm c')) (pendingRatio (tm c') * Size c') = 32.
Proof.
  exists (state_of drift_before_last_put).
  exists (Put_locked kC (IInt 0) 2000 2000000 (state_of drift_before_last_put)).1.
  split; [vm_compute; reflexivity|].
  split; [exact drift_reachable|].
  do 6 (split; [vm_compute; reflexivity|]).
  vm_compute. reflexivity.
Qed.

(** ** C4: life of the purger goroutine *)

(** An iteration of the purger loop ends the loop only by a receive on the
    closed, empty [resched] channel. *)
Lemma purger_iter_exit (w : wake) (now : Z) (c c' : Cache) :
  purger_iter w now c = Some (Ok c') ->
  purgerRunning c' = false ->
  w = WResched /\ buffered (resched (tm c)) = false /\ closed (resched (tm c)) = true.
Proof.
  unfold purger_iter. intros H Hstop.
  destruct (purgerRunning c) eqn:Hrun; [|discriminate].
  destruct w.
  - destruct (recv_resched c) as [[c1 ok]|] eqn:Hrecv; [|discriminate].
    unfold recv_resched in Hrecv.
    destruct (buffered (resched (tm c))).
    + injection Hrecv as <- <-. injection H as H.
      apply handleResched_frame in H as [Hr _]. simpl in Hr. congruence.
    + destruct (closed (resched (tm c))); [|discriminate]. auto.
  - destruct (timer_fire now c) as [c1|] eqn:Hfire; [|discriminate].
    apply timer_fire_frame in Hfire as (_ & Hr1 & _).
    injection H as H. apply handleResched_frame in H as [Hr _]. congruence.
Qed.

(** After [Close] the next receive on [resched] ends the loop. *)
Lemma purger_exits_after_Close (args : list Z) (now : Z) :
  exists c1 c2 : Cache,
    Close (New args) = Ok c1
    /\ purger_iter WResched now c1 = Some (Ok c2)
    /\ purgerRunning c2 = false.
Proof. do 2 eexists. repeat split. Qed.

(** C4 (as the code has it).  [New] starts the purger goroutine, before
    any signal.  In every state the system can reach in which [resched] has
    not been closed the goroutine is still inside its loop: neither an idle
    period nor a wake-up ends it.  The one iteration that ends the loop is
    a receive on the closed, empty channel. *)
Theorem purger_runs_until_closed (args : list Z) (c : Cache) :
  reachable args c ->
  purgerRunning (New args) = true
  /\ (closed (resched (tm c)) = false -> purgerRunning c = true)
  /\ (forall (w : wake) (now : Z) (c' : Cache),
        purger_iter w now c = Some (Ok c') ->
        purgerRunning c' = false ->
        w = WResched
        /\ buffered (resched (tm c)) = false
        /\ closed (resched (tm c)) = true).
Proof.
  intros Hreach. split; [reflexivity|]. split.
  - apply (reachable_purger_alive args c Hreach).
  - intros w now c'. apply purger_iter_exit.
Qed.

(** The same at the state of the replace run, where [resched] is open. *)
Lemma purger_runs_until_closed_witness :
  reachable [] (state_of race_before_sweep)
  /\ closed (resched (tm (state_of race_before_sweep))) = false
  /\ purgerRunning (state_of race_before_sweep) = true.
Proof.
  split; [exact race_reachable|].
  assert (closed (resched (tm (state_of race_before_sweep))) = false) as Hopen
    by (vm_compute; reflexivity).
  split; [exact Hopen|].
  exact (proj1 (proj2
    (purger_runs_until_closed [] (state_of race_before_sweep) race_reachable)) Hopen).
Defined.

(** C4 (as stated) fails.  Right after [New], with no signal sent, the
    goroutine exists; three seconds later, with the ladder still empty and
    still no signal, neither case of its [select] is ready: it has not
    returned and it stays blocked. *)
Lemma purger_exists_before_any_signal :
  purgerRunning (New []) = true
  /\ buffered (resched (tm (New []))) = false
  /\ timeouts (tm (New [])) = []
  /\ purger_iter WTimer 3000000000 (New []) = None
  /\ purger_iter WResched 3000000000 (New []) = None.
Proof. repeat split. Qed.

(** ** C5: when a signal is asked for *)

(** C5 (as the code has it).  [appendAddOper] asks for a signal exactly
    when the old deadline equals [nextPurgeTime], or the new deadline is
    below [nextPurgeTime], or the log, after the append, is longer than the
    greater of [pendingMax] and [pendingRatio * cacheSize], with
    [cacheSize] the manager's counter after the call.  [appendDelOper] asks
    for one exactly when the deadline equals [nextPurgeTime] or the log is
    longer than that limit. *)
Theorem needResched_exact (k : iface) (oTo nTo to : Z) (c : TimeoutManager) :
  ((appendAddOper k oTo nTo c).2 = true <->
     oTo = nextPurgeTime c
     \/ nTo < nextPurgeTime c
     \/ Z.max (pendingMax c)
              (wrap64 (pendingRatio c * cacheSize (appendAddOper k oTo nTo c).1))
        < len (operLog (appendAddOper k oTo nTo c).1))
  /\ ((appendDelOper k to c).2 = true <->
     to = nextPurgeTime c
     \/ Z.max (pendingMax c)
              (wrap64 (pendingRatio c * cacheSize (appendDelOper k to c).1))
        < len (operLog (appendDelOper k to c).1)).
Proof.
  split.
  - unfold appendAddOper.
    set (c2 := set_operLog _ (if oTo =? 0 then _ else _)).
    assert (nextPurgeTime c2 = nextPurgeTime c /\ pendingMax c2 = pendingMax c
            /\ pendingRatio c2 = pendingRatio c) as (Hn & Hm & Hr).
    { subst c2. destruct (oTo =? 0); repeat split. }
    pose proof (pendingLimit_max c2) as Hpl. rewrite Hm, Hr in Hpl.
    rewrite Hn, Hpl.
    destruct (_ || _ || _) eqn:Hb; cbn [fst snd].
    + split; [intros _|reflexivity].
      apply orb_true_iff in Hb as [Hb|Hb].
      * apply orb_true_iff in Hb as [Hb|Hb].
        -- left. apply Z.eqb_eq. exact Hb.
        -- right. left. apply Z.ltb_lt. exact Hb.
      * right. right. apply Z.ltb_lt. exact Hb.
    + split; [discriminate|]. intros H. exfalso.
      apply orb_false_iff in Hb as [Hb H3].
      apply orb_false_iff in Hb as [H1 H2].
      apply Z.eqb_neq in H1. apply Z.ltb_ge in H2. apply Z.ltb_ge in H3. lia.
  - unfold appendDelOper.
    set (c2 := set_operLog _ _).
    assert (nextPurgeTime c2 = nextPurgeTime c /\ pendingMax c2 = pendingMax c
            /\ pendingRatio c2 = pendingRatio c) as (Hn & Hm & Hr).
    { subst c2. repeat split. }
    pose proof (pendingLimit_max c2) as Hpl. rewrite Hm, Hr in Hpl.
    rewrite Hn, Hpl.
    destruct (_ || _) eqn:Hb; cbn [fst snd].
    + split; [intros _|reflexivity].
      apply orb_true_iff in Hb as [Hb|Hb].
      * left. apply Z.eqb_eq. exact Hb.
      * right. apply Z.ltb_lt. exact Hb.
    + split; [discriminate|]. intros H. exfalso.
      apply orb_false_iff in Hb as [H1 H3].
      apply Z.eqb_neq in H1. apply Z.ltb_ge in H3. lia.
Qed.

(** C5 (as stated) fails.  With the purger idle ([nextPurgeTime] at its
    initial [MaxInt64]) a [Put] whose deadline comes out as [MaxInt64] asks
    for no signal; nor does the [Remove] of an entry that the purger has
    not scheduled yet. *)
Lemma idle_purger_not_signalled :
  (nextPurgeTime (tm (New [])) = MaxInt64
   /\ (Put_locked kA (IInt 1) far_timeoutMs far_now (New [])).2 = false)
  /\ exists c : Cache,
       put_unscheduled = Ok c
       /\ nextPurgeTime (tm c) = MaxInt64
       /\ cdata c !! kA = Some (mkTimedData (IInt 1) 100000000)
       /\ (Remove_locked kA (mkTimedData (IInt 1) 100000000) c).2 = false.
Proof.
  split.
  - split; vm_compute; reflexivity.
  - exists (state_of put_unscheduled).
    split; [vm_compute; reflexivity|].
    split; [vm_compute; reflexivity|].
    split; vm_compute; reflexivity.
Qed.

(** ** C6: the ladder invariant *)

(** C6.  A replay of the pending log and an expiry sweep each keep the
    ladder sorted by strictly ascending deadline and free of buckets
    without keys; the replay completes. *)
Theorem ladder_invariant_preserved (now : Z) (c : Cache) :
  ladder_inv (timeouts (tm c)) ->
  (exists c' : Cache,
     updateTimeoutsFromPendingList c = Ok c' /\ ladder_inv (timeouts (tm c')))
  /\ ladder_inv (timeouts (tm (deleteExpiredEntries now c)))
  /\ ladder_inv (timeouts (tm (purgeAndResetTimer now c))).
Proof.
  intros Hinv. split; [|split].
  - apply updateTimeoutsFromPendingList_inv. exact Hinv.
  - apply deleteExpiredEntries_inv. exact Hinv.
  - destruct (purgeAndResetTimer_frame now c) as (-> & _).
    apply deleteExpiredEntries_inv. exact Hinv.
Qed.

(** The same at the state of the replace run, whose log holds a DEL and an
    ADD and whose head bucket has expired. *)
Lemma ladder_invariant_preserved_witness :
  ladder_inv (timeouts (tm (state_of race_before_sweep)))
  /\ (exists c' : Cache,
        updateTimeoutsFromPendingList (state_of race_before_sweep) = Ok c'
        /\ ladder_inv (timeouts (tm c')))
  /\ ladder_inv (timeouts (tm (deleteExpiredEntries 100000000 (state_of race_before_sweep))))
  /\ ladder_inv (timeouts (tm (purgeAndResetTimer 100000000 (state_of race_before_sweep)))).
Proof.
  assert (ladder_inv (timeouts (tm (state_of race_before_sweep)))) as Hinv.
  { vm_compute. split; repeat constructor. discriminate. }
  split; [exact Hinv|].
  apply (ladder_invariant_preserved 100000000 (state_of race_before_sweep) Hinv).
Defined.

(** ** C7: closing twice *)

(** C7: the code at the failing input.  The first [Close] of a fresh cache
    succeeds and leaves [resched] closed; the second one panics. *)
Theorem second_Close_panics (args : list Z) :
  exists c1 : Cache,
    Close (New args) = Ok c1
    /\ closed (resched (tm c1)) = true
    /\ Close c1 = Panic.
Proof. eexists. repeat split. Qed.

(** ** C8: a time-out that is not positive *)

(** C8.  [Put] with [timeoutMs <= 0] returns with the whole state as it
    was: map, log, ladder, [nextPurgeTime] and the [resched] channel. *)
Theorem Put_nonpositive_timeout_noop (k v : iface) (timeoutMs now : Z) (c : Cache) :
  timeoutMs <= 0 -> Put k v timeoutMs now c = Ok c.
Proof.
  intros Hle. unfold Put.
  destruct (Z.leb_spec timeoutMs 0); [reflexivity | lia].
Qed.

(** The same at time-out 0 on a cache that holds an entry and a pending
    log. *)
Lemma Put_nonpositive_timeout_noop_witness :
  0 <= 0
  /\ Put kA (IInt 1) 0 7 (state_of race_before_sweep) = Ok (state_of race_before_sweep).
Proof.
  split; [lia|].
  apply (Put_nonpositive_timeout_noop kA (IInt 1) 0 7 (state_of race_before_sweep)).
  lia.
Defined.

(** ** C9: a replayed DEL never reads an empty key list *)

Lemma applyOper_DEL_no_bucket (k : iface) (t : Z) (ts : list Bucket) :
  t ∉ deadlines ts ->
  applyOper (mkTimedData (mkKeyOper k DEL) t) ts = Ok ts.
Proof.
  intros Hnot. unfold applyOper. simpl.
  set (i := sort_Search _ _).
  destruct (found ts i t) eqn:Hf; [|reflexivity].
  exfalso. apply Hnot. unfold found in Hf.
  destruct (ts !! i) as [b|] eqn:Hb; [|discriminate].
  apply Z.eqb_eq in Hf. subst t.
  apply list_elem_of_fmap. exists b. split; [reflexivity|].
  eapply list_elem_of_lookup_2. exact Hb.
Qed.

(** C9.  In every state the system can reach: every bucket of the ladder
    has a key, so [delKeyTimeout] at any index of the ladder returns; the
    replay of any log, and so [updateTimeoutsFromPendingList], completes
    without a panic and leaves no bucket without keys; and a DEL whose
    deadline has no bucket leaves the ladder as it was. *)
Theorem replay_never_panics (args : list Z) (c : Cache) :
  reachable args c ->
  no_empty_bucket (timeouts (tm c))
  /\ (forall (k : iface) (i : nat), (i < length (timeouts (tm c)))%nat ->
        exists ts', delKeyTimeout k i (timeouts (tm c)) = Ok ts')
  /\ (forall log : list LogRec,
        exists ts', replay log (timeouts (tm c)) = Ok ts' /\ no_empty_bucket ts')
  /\ (exists c', updateTimeoutsFromPendingList c = Ok c')
  /\ (forall (k : iface) (t : Z), t ∉ deadlines (timeouts (tm c)) ->
        applyOper (mkTimedData (mkKeyOper k DEL) t) (timeouts (tm c))
        = Ok (timeouts (tm c))).
Proof.
  intros Hreach. pose proof (reachable_ladder_inv args c Hreach) as Hinv.
  split; [exact (proj2 Hinv)|]. split; [|split; [|split]].
  - intros k i Hi. destruct (delKeyTimeout_inv k i _ Hi Hinv) as (ts' & H & _).
    exists ts'. exact H.
  - intros log. destruct (replay_inv log _ Hinv) as (ts' & H & _ & Hne).
    exists ts'. split; assumption.
  - destruct (updateTimeoutsFromPendingList_inv c Hinv) as (c' & H & _).
    exists c'. exact H.
  - intros k t Hnot. apply applyOper_DEL_no_bucket. exact Hnot.
Qed.

(** The same at the state of the replace run after the sweep: the log holds
    a DEL for deadline 100 ms, whose bucket has been evicted. *)
Lemma replay_never_panics_witness :
  reachable [] (purgeAndResetTimer 100000000 (state_of race_before_sweep))
  /\ exists c' : Cache,
       updateTimeoutsFromPendingList
         (purgeAndResetTimer 100000000 (state_of race_before_sweep)) = Ok c'.
Proof.
  assert (reachable [] (purgeAndResetTimer 100000000 (state_of race_before_sweep)))
    as Hreach.
  { eapply reach_step; [exact race_reachable | apply step_purge]. }
  split; [exact Hreach|].
  exact (proj1 (proj2 (proj2 (proj2
    (replay_never_panics [] _ Hreach))))).
Defined.

(** ** C10: [Remove] *)


(** ** Client operations: what they do to the state *)

Lemma wrap64_add_l (a b : Z) : wrap64 (wrap64 a + b) = wrap64 (a + b).
Proof.
  unfold wrap64. f_equal.
  replace ((a + 2 ^ 63) mod 2 ^ 64 - 2 ^ 63 + b + 2 ^ 63)
    with ((a + 2 ^ 63) mod 2 ^ 64 + b) by lia.
  rewrite Zplus_mod_idemp_l. f_equal. lia.
Qed.

Lemma Put_locked_fields (k v : iface) (timeoutMs now : Z) (c : Cache) :
  let oTo := match cdata c !! k with Some e => timeout e | None => 0 end in
  let c1 := (Put_locked k v timeoutMs now c).1 in
  cdata c1 = <[k := mkTimedData v (deadline timeoutMs now)]> (cdata c)
  /\ operLog (tm c1)
     = operLog (tm c)
       ++ (if oTo =? 0 then [] else [mkTimedData (mkKeyOper k DEL) oTo])
       ++ [mkTimedData (mkKeyOper k ADD) (deadline timeoutMs now)]
  /\ cacheSize (tm c1)
     = (if oTo =? 0 then wrap64 (cacheSize (tm c) + 1) else cacheSize (tm c))
  /\ timeouts (tm c1) = timeouts (tm c)
  /\ nextPurgeTime (tm c1) = nextPurgeTime (tm c)
  /\ resched (tm c1) = resched (tm c)
  /\ purgerRunning c1 = purgerRunning c.
Proof.
  unfold Put_locked, deadline.
  set (oTo := timeout match cdata c !! k with Some e => e | None => _ end).
  assert (oTo = match cdata c !! k with Some e => timeout e | None => 0 end) as <-.
  { subst oTo. destruct (cdata c !! k); reflexivity. }
  destruct (appendAddOper _ _ _ _) as [t need] eqn:E.
  apply (f_equal fst) in E. simpl in E. subst t. simpl.
  unfold appendAddOper. simpl.
  destruct (oTo =? 0); repeat case_match; simpl;
    rewrite <- ?app_assoc; repeat split; reflexivity.
Qed.

Lemma Put_Ok_fields (k v : iface) (timeoutMs now : Z) (c c' : Cache) :
  0 < timeoutMs ->
  Put k v timeoutMs now c = Ok c' ->
  let c1 := (Put_locked k v timeoutMs now c).1 in
  cdata c' = cdata c1 /\ operLog (tm c') = operLog (tm c1)
  /\ cacheSize (tm c') = cacheSize (tm c1)
  /\ timeouts (tm c') = timeouts (tm c1)
  /\ nextPurgeTime (tm c') = nextPurgeTime (tm c1)
  /\ closed (resched (tm c')) = closed (resched (tm c1))
  /\ purgerRunning c' = purgerRunning c1.
Proof.
  intros Hpos. unfold Put.
  destruct (Z.leb_spec timeoutMs 0) as [Hle|_]; [lia|].
  destruct (Put_locked k v timeoutMs now c) as [c1 need]. simpl.
  destruct need.
  - unfold notifyResched.
    destruct (closed (resched (tm c1))) eqn:Hcl; simpl; [discriminate|].
    intros H. injection H as <-. simpl. repeat split.
  - intros H. injection H as <-. repeat split.
Qed.

Lemma Remove_locked_fields (k : iface) (vt : TimedData iface) (c : Cache) :
  let c1 := (Remove_locked k vt c).1 in
  cdata c1 = delete k (cdata c)
  /\ operLog (tm c1) = operLog (tm c) ++ [mkTimedData (mkKeyOper k DEL) (timeout vt)]
  /\ cacheSize (tm c1) = wrap64 (cacheSize (tm c) - 1)
  /\ timeouts (tm c1) = timeouts (tm c)
  /\ nextPurgeTime (tm c1) = nextPurgeTime (tm c)
  /\ resched (tm c1) = resched (tm c)
  /\ purgerRunning c1 = purgerRunning c.
Proof.
  unfold Remove_locked.
  destruct (appendDelOper _ _ _) as [t need] eqn:E.
  apply (f_equal fst) in E. simpl in E. subst t. simpl.
  unfold appendDelOper. simpl.
  repeat case_match; simpl; repeat split; reflexivity.
Qed.

Lemma Remove_Ok_fields (k : iface) (vt : TimedData iface) (c c' : Cache) (v : iface) :
  cdata c !! k = Some vt ->
  Remove k c = Ok (c', v) ->
  let c1 := (Remove_locked k vt c).1 in
  v = data vt
  /\ cdata c' = cdata c1 /\ operLog (tm c') = operLog (tm c1)
  /\ cacheSize (tm c') = cacheSize (tm c1)
  /\ timeouts (tm c') = timeouts (tm c1)
  /\ nextPurgeTime (tm c') = nextPurgeTime (tm c1)
  /\ closed (resched (tm c')) = closed (resched (tm c1))
  /\ purgerRunning c' = purgerRunning c1.
Proof.
  intros Hk. unfold Remove. rewrite Hk.
  destruct (Remove_locked k vt c) as [c1 need]. simpl.
  destruct need.
  - unfold notifyResched.
    destruct (closed (resched (tm c1))) eqn:Hcl; simpl; [discriminate|].
    intros H. injection H as <- <-. simpl. repeat split.
  - intros H. injection H as <- <-. repeat split.
Qed.

(** ** [Put] and [Get] *)

Lemma Put_open_returns (k v : iface) (timeoutMs now : Z) (c : Cache) :
  0 < timeoutMs ->
  closed (resched (tm c)) = false ->
  exists c' : Cache, Put k v timeoutMs now c = Ok c'.
Proof.
  intros Hpos Hopen.
  unfold Put. destruct (Z.leb_spec timeoutMs 0) as [Hle|_]; [lia|].
  pose proof (Put_locked_fields k v timeoutMs now c) as (_ & _ & _ & _ & _ & Hch & _).
  destruct (Put_locked k v timeoutMs now c) as [c1 need]. simpl in Hch.
  destruct need; [|eexists; reflexivity].
  unfold notifyResched. rewrite Hch, Hopen. eexists. reflexivity.
Qed.

(** X1.  On a cache that has not been closed, [Put] with a positive
    time-out returns; afterwards [Get] of the key yields the value just
    stored, whatever was stored before, and [Get] of any other key yields
    what it did before. *)
Theorem Put_then_Get (k v : iface) (timeoutMs now : Z) (c : Cache) :
  0 < timeoutMs ->
  closed (resched (tm c)) = false ->
  exists c' : Cache,
    Put k v timeoutMs now c = Ok c'
    /\ Get k c' = v
    /\ (forall k' : iface, k' <> k -> Get k' c' = Get k' c).
Proof.
  intros Hpos Hopen.
  destruct (Put_open_returns k v timeoutMs now c Hpos Hopen) as [c' Hput].
  exists c'. split; [exact Hput|].
  pose proof (Put_Ok_fields k v timeoutMs now c c' Hpos Hput) as (Hd & _).
  pose proof (Put_locked_fields k v timeoutMs now c) as (Hd1 & _).
  simpl in Hd, Hd1. rewrite Hd1 in Hd. unfold Get. rewrite Hd. split.
  - rewrite lookup_insert_eq. reflexivity.
  - intros k' Hne. rewrite lookup_insert_ne by congruence. reflexivity.
Qed.

(** ** [Size] *)

Lemma Size_Put (k v : iface) (timeoutMs now : Z) (c c' : Cache) :
  0 < timeoutMs ->
  Put k v timeoutMs now c = Ok c' ->
  Size c' = match cdata c !! k with Some _ => Size c | None => Size c + 1 end.
Proof.
  intros Hpos Hput.
  pose proof (Put_Ok_fields k v timeoutMs now c c' Hpos Hput) as (Hd & _).
  pose proof (Put_locked_fields k v timeoutMs now c) as (Hd1 & _).
  simpl in Hd, Hd1. rewrite Hd1 in Hd. unfold Size. rewrite Hd.
  rewrite map_size_insert. destruct (cdata c !! k); unfold id; lia.
Qed.

Lemma Size_Remove (k : iface) (c c' : Cache) (r : iface) :
  Remove k c = Ok (c', r) ->
  Size c' = match cdata c !! k with Some _ => Size c - 1 | None => Size c end.
Proof.
  intros Hrem. destruct (cdata c !! k) as [vt|] eqn:Hk.
  - pose proof (Remove_Ok_fields k vt c c' r Hk Hrem) as (_ & Hd & _).
    pose proof (Remove_locked_fields k vt c) as (Hd1 & _).
    simpl in Hd, Hd1. rewrite Hd1 in Hd. unfold Size. rewrite Hd.
    rewrite map_size_delete, Hk.
    assert (size (cdata c) <> 0%nat).
    { intros H0. apply map_size_empty_inv in H0. rewrite H0 in Hk.
      rewrite lookup_empty in Hk. discriminate. }
    lia.
  - unfold Remove in Hrem. rewrite Hk in Hrem. injection Hrem as <- _. reflexivity.
Qed.

(** X2.  A [Put] that returns, with a positive time-out, adds one to [Size]
    when the key is new and leaves [Size] as it is when the key is replaced;
    a [Remove] that returns takes one away when the key is present and
    leaves [Size] as it is otherwise. *)
Theorem Size_after_Put_Remove (k v : iface) (timeoutMs now : Z) (c : Cache) :
  (forall c' : Cache,
     0 < timeoutMs ->
     Put k v timeoutMs now c = Ok c' ->
     Size c' = match cdata c !! k with Some _ => Size c | None => Size c + 1 end)
  /\ (forall (c' : Cache) (r : iface),
     Remove k c = Ok (c', r) ->
     Size c' = match cdata c !! k with Some _ => Size c - 1 | None => Size c end).
Proof.
  split.
  - intros c' Hpos Hput. exact (Size_Put k v timeoutMs now c c' Hpos Hput).
  - intros c' r Hrem. exact (Size_Remove k c c' r Hrem).
Qed.

Lemma wrap64_sub_l (a b : Z) : wrap64 (wrap64 a - b) = wrap64 (a - b).
Proof.
  replace (wrap64 a - b) with (wrap64 a + - b) by lia.
  rewrite wrap64_add_l. reflexivity.
Qed.

(** X1 at a fresh cache. *)
Lemma Put_then_Get_witness :
  0 < 100
  /\ closed (resched (tm (New []))) = false
  /\ exists c' : Cache,
       Put kA (IInt 1) 100 0 (New []) = Ok c'
       /\ Get kA c' = IInt 1
       /\ (forall k' : iface, k' <> kA -> Get k' c' = Get k' (New [])).
Proof.
  assert (0 < 100) as Hpos by lia.
  assert (closed (resched (tm (New []))) = false) as Hopen by reflexivity.
  split; [exact Hpos|]. split; [exact Hopen|].
  exact (Put_then_Get kA (IInt 1) 100 0 (New []) Hpos Hopen).
Defined.

(** X2 at the state of the replace run: a new key, and a present one. *)
Lemma Size_after_Put_Remove_witness :
  (forall c' : Cache,
     Put kH (IInt 0) 100 0 (state_of race_before_sweep) = Ok c' -> Size c' = 2)
  /\ (forall (c' : Cache) (r : iface),
     Remove kA (state_of race_before_sweep) = Ok (c', r) -> Size c' = 0).
Proof.
  assert (0 < 100) as Hpos by lia.
  split.
  - intros c' Hput.
    exact (proj1 (Size_after_Put_Remove kH (IInt 0) 100 0 (state_of race_before_sweep))
             c' Hpos Hput).
  - intros c' r Hrem.
    exact (proj2 (Size_after_Put_Remove kA (IInt 0) 100 0 (state_of race_before_sweep))
             c' r Hrem).
Defined.

(** ** [Put] then [Remove] *)

(** X3.  On a cache that has not been closed, storing a key that is not in
    the map and removing it again returns the stored value and leaves the
    map, the ladder and the entry counter as they were; the log has grown
    by an ADD and a DEL for the key. *)
Theorem Put_Remove_roundtrip (k v : iface) (timeoutMs now : Z) (c : Cache) :
  0 < timeoutMs ->
  cdata c !! k = None ->
  closed (resched (tm c)) = false ->
  int64_range (cacheSize (tm c)) ->
  exists c1 c2 : Cache,
    Put k v timeoutMs now c = Ok c1
    /\ Remove k c1 = Ok (c2, v)
    /\ cdata c2 = cdata c
    /\ timeouts (tm c2) = timeouts (tm c)
    /\ cacheSize (tm c2) = cacheSize (tm c)
    /\ operLog (tm c2)
       = operLog (tm c)
         ++ [mkTimedData (mkKeyOper k ADD) (deadline timeoutMs now);
             mkTimedData (mkKeyOper k DEL) (deadline timeoutMs now)].
Proof.
  intros Hpos Hk Hopen Hrange.
  destruct (Put_open_returns k v timeoutMs now c Hpos Hopen) as (c1 & Hput).
  pose proof (Put_Ok_fields k v timeoutMs now c c1 Hpos Hput)
    as (Hd & Hl & Hs & Ht & _ & Hcl & _).
  pose proof (Put_locked_fields k v timeoutMs now c)
    as (Hd1 & Hl1 & Hs1 & Ht1 & _ & Hch1 & _).
  cbn -[wrap64 deadline] in *. rewrite Hk in *. cbn -[wrap64 deadline] in *.
  rewrite Hd1 in Hd. rewrite Hl1 in Hl. rewrite Hs1 in Hs. rewrite Ht1 in Ht.
  rewrite Hch1, Hopen in Hcl.
  set (e := mkTimedData v (deadline timeoutMs now)) in *.
  assert (cdata c1 !! k = Some e) as Hk1 by (rewrite Hd; apply lookup_insert_eq).
  assert (exists c2 r, Remove k c1 = Ok (c2, r)) as (c2 & r & Hrem).
  { unfold Remove. rewrite Hk1.
    pose proof (Remove_locked_fields k e c1) as (_ & _ & _ & _ & _ & Hch & _).
    destruct (Remove_locked k e c1) as [c1' need]. simpl in Hch.
    destruct need; [|do 2 eexists; reflexivity].
    unfold notifyResched. rewrite Hch, Hcl. do 2 eexists. reflexivity. }
  pose proof (Remove_Ok_fields k e c1 c2 r Hk1 Hrem)
    as (Hr & Hd2 & Hl2 & Hs2 & Ht2 & _).
  pose proof (Remove_locked_fields k e c1) as (Hd3 & Hl3 & Hs3 & Ht3 & _).
  cbn -[wrap64 deadline] in *. subst r.
  exists c1, c2. split; [exact Hput|]. split; [exact Hrem|].
  split; [|split; [|split]].
  - rewrite Hd2, Hd3, Hd. apply delete_insert_id. exact Hk.
  - congruence.
  - rewrite Hs2, Hs3, Hs. rewrite wrap64_sub_l.
    replace (cacheSize (tm c) + 1 - 1) with (cacheSize (tm c)) by lia.
    apply wrap64_id. exact Hrange.
  - rewrite Hl2, Hl3, Hl. rewrite <- app_assoc. reflexivity.
Qed.

(** X3 at a fresh cache. *)
Lemma Put_Remove_roundtrip_witness :
  exists c1 c2 : Cache,
    Put kA (IInt 1) 100 0 (New []) = Ok c1
    /\ Remove kA c1 = Ok (c2, IInt 1)
    /\ cdata c2 = cdata (New [])
    /\ timeouts (tm c2) = timeouts (tm (New []))
    /\ cacheSize (tm c2) = cacheSize (tm (New []))
    /\ operLog (tm c2)
       = operLog (tm (New []))
         ++ [mkTimedData (mkKeyOper kA ADD) (deadline 100 0);
             mkTimedData (mkKeyOper kA DEL) (deadline 100 0)].
Proof.
  apply (Put_Remove_roundtrip kA (IInt 1) 100 0 (New [])).
  - lia.
  - reflexivity.
  - reflexivity.
  - unfold int64_range, MaxInt64. simpl. lia.
Defined.

(** ** The entry counter under client calls *)

(** X4.  As long as no entry has deadline 0, [Put] and [Remove] keep
    [cacheSize] equal to the number of entries of the map (as a Go [int]). *)
Theorem client_calls_keep_cacheSize (k v : iface) (timeoutMs now : Z) (c : Cache) :
  no_zero_deadline c ->
  cacheSize (tm c) = wrap64 (Size c) ->
  (forall c' : Cache,
     Put k v timeoutMs now c = Ok c' -> cacheSize (tm c') = wrap64 (Size c'))
  /\ (forall (c' : Cache) (r : iface),
     Remove k c = Ok (c', r) -> cacheSize (tm c') = wrap64 (Size c')).
Proof.
  intros Hnz Hcs. split.
  - intros c' Hput.
    destruct (Z.leb_spec timeoutMs 0) as [Hle|Hpos].
    { unfold Put in Hput. destruct (Z.leb_spec timeoutMs 0); [|lia].
      injection Hput as <-. exact Hcs. }
    pose proof (Size_Put k v timeoutMs now c c' Hpos Hput) as Hsz.
    pose proof (Put_Ok_fields k v timeoutMs now c c' Hpos Hput) as (_ & _ & Hs & _).
    pose proof (Put_locked_fields k v timeoutMs now c) as (_ & _ & Hs1 & _).
    cbn -[wrap64 deadline] in Hs, Hs1. rewrite Hs1 in Hs. rewrite Hs, Hsz.
    destruct (cdata c !! k) as [e|] eqn:Hk.
    + specialize (Hnz k e Hk). destruct (Z.eqb_spec (timeout e) 0); [contradiction|].
      exact Hcs.
    + simpl. rewrite Hcs. apply wrap64_add_l.
  - intros c' r Hrem.
    pose proof (Size_Remove k c c' r Hrem) as Hsz.
    destruct (cdata c !! k) as [vt|] eqn:Hk.
    + pose proof (Remove_Ok_fields k vt c c' r Hk Hrem) as (_ & _ & _ & Hs & _).
      pose proof (Remove_locked_fields k vt c) as (_ & _ & Hs1 & _).
      cbn -[wrap64 deadline] in Hs, Hs1. rewrite Hs1 in Hs. rewrite Hs, Hsz, Hcs.
      apply wrap64_sub_l.
    + unfold Remove in Hrem. rewrite Hk in Hrem. injection Hrem as <- _. exact Hcs.
Qed.

(** X4 at a fresh cache. *)
Lemma client_calls_keep_cacheSize_witness :
  no_zero_deadline (New [])
  /\ cacheSize (tm (New [])) = wrap64 (Size (New []))
  /\ forall c' : Cache,
       Put kA (IInt 1) 100 0 (New []) = Ok c' -> cacheSize (tm c') = wrap64 (Size c').
Proof.
  assert (no_zero_deadline (New [])) as Hnz.
  { intros k e Hk. simpl in Hk. rewrite lookup_empty in Hk. discriminate. }
  assert (cacheSize (tm (New [])) = wrap64 (Size (New []))) as Hcs by reflexivity.
  split; [exact Hnz|]. split; [exact Hcs|].
  exact (proj1 (client_calls_keep_cacheSize kA (IInt 1) 100 0 (New []) Hnz Hcs)).
Defined.

(** ** Calls after [Close] *)

(** X5.  Once the cache has been closed, a call that has to signal the
    purger panics: [Put] with a positive time-out whose deadline is earlier
    than [nextPurgeTime], and [Remove] of an entry whose deadline is
    [nextPurgeTime]. *)
Theorem signalling_calls_panic_after_Close (k v : iface) (timeoutMs now : Z) (c : Cache) :
  closed (resched (tm c)) = true ->
  (0 < timeoutMs ->
   deadline timeoutMs now < nextPurgeTime (tm c) ->
   Put k v timeoutMs now c = Panic)
  /\ (forall vt : TimedData iface,
        cdata c !! k = Some vt ->
        timeout vt = nextPurgeTime (tm c) ->
        Remove k c = Panic).
Proof.
  intros Hcl. split.
  - intros Hpos Hlt. unfold Put.
    destruct (Z.leb_spec timeoutMs 0) as [Hle|_]; [lia|].
    pose proof (Put_locked_fields k v timeoutMs now c)
      as (_ & _ & _ & _ & _ & Hch & _).
    unfold Put_locked in *. fold (deadline timeoutMs now) in *.
    destruct (appendAddOper _ _ _ _) as [t need] eqn:E.
    pose proof (f_equal snd E) as Hneed. cbn [fst snd tm set_tm] in Hneed, Hch.
    unfold appendAddOper in Hneed.
    match type of Hneed with
    | context [?a || (deadline timeoutMs now <? ?n) || ?b] =>
        assert (n = nextPurgeTime (tm c)) as Hn
          by (destruct (_ =? 0); reflexivity);
        replace (a || (deadline timeoutMs now <? n) || b) with true in Hneed
    end.
    + cbn [snd] in Hneed. subst need. unfold notifyResched.
      cbn [tm set_tm]. rewrite Hch, Hcl. reflexivity.
    + symmetry. rewrite Hn. apply Z.ltb_lt in Hlt. rewrite Hlt.
      rewrite orb_true_r. reflexivity.
  - intros vt Hk Heq. unfold Remove. rewrite Hk.
    pose proof (Remove_locked_fields k vt c) as (_ & _ & _ & _ & _ & Hch & _).
    unfold Remove_locked in *.
    destruct (appendDelOper _ _ _) as [t need] eqn:E.
    pose proof (f_equal snd E) as Hneed. cbn [fst snd tm set_tm] in Hneed, Hch.
    unfold appendDelOper in Hneed. cbn in Hneed.
    rewrite Heq, Z.eqb_refl in Hneed. cbn in Hneed. subst need.
    unfold notifyResched. cbn [tm set_tm]. rewrite Hch, Hcl. reflexivity.
Qed.

(** X5 at a fresh cache that has been closed. *)
Lemma signalling_calls_panic_after_Close_witness :
  exists c1 : Cache,
    Close (New []) = Ok c1
    /\ closed (resched (tm c1)) = true
    /\ Put kA (IInt 1) 100 0 c1 = Panic.
Proof.
  eexists. split; [reflexivity|].
  assert (closed (resched (tm (set_tm (set_resched (mkChan false true)
            (set_purgeTimer None (tm (New [])))) (New [])))) = true) as Hcl
    by reflexivity.
  split; [exact Hcl|].
  apply (proj1 (signalling_calls_panic_after_Close kA (IInt 1) 100 0 _ Hcl)).
  - lia.
  - vm_compute. reflexivity.
Defined.

(** ** [GetContent] *)

(** X6.  [GetContent] returns the nil map exactly when the cache is empty;
    otherwise the map it returns has the keys of the cache, each with the
    value [Get] returns for it. *)
Theorem GetContent_spec (c : Cache) :
  match GetContent c with
  | None => cdata c = ∅
  | Some m =>
      cdata c <> ∅
      /\ forall k : iface,
           m !! k = data <$> cdata c !! k
           /\ (is_Some (m !! k) -> m !! k = Some (Get k c))
  end.
Proof.
  unfold GetContent.
  destruct (decide (0 < size (cdata c))%nat) as [Hpos|Hzero].
  - split.
    + intros Hemp. rewrite Hemp, map_size_empty in Hpos. lia.
    + assert (forall k, map_fold (fun k vt m => <[k:=data vt]> m)
                            (∅ : gmap iface iface) (cdata c) !! k
                        = data <$> cdata c !! k) as Hlook.
      { apply (map_fold_weak_ind
                 (fun (r : gmap iface iface) (m : gmap iface (TimedData iface)) =>
                    forall k, r !! k = data <$> m !! k)).
        - intros k. rewrite !lookup_empty. reflexivity.
        - intros i x m r Hi IH k. destruct (decide (i = k)) as [->|Hne].
          + rewrite !lookup_insert_eq. reflexivity.
          + rewrite !lookup_insert_ne by exact Hne. apply IH. }
      intros k. split; [apply Hlook|].
      rewrite Hlook. unfold Get. destruct (cdata c !! k); simpl.
      * reflexivity.
      * intros [x Hx]. discriminate.
  - apply map_size_empty_inv. lia.
Qed.

(** ** The signal channel *)

(** X7.  Signals do not pile up: after one or several [notifyResched] the
    channel holds one token; one receive of the purger takes it, and the
    next receive blocks. *)
Theorem signals_coalesce (c : Cache) (t1 : TimeoutManager) :
  notifyResched (tm c) = Ok t1 ->
  notifyResched t1 = Ok t1
  /\ exists c' : Cache,
       recv_resched (set_tm t1 c) = Some (c', true)
       /\ recv_resched c' = None.
Proof.
  unfold notifyResched.
  destruct (closed (resched (tm c))) eqn:Hcl; [discriminate|].
  intros H. injection H as <-. split; [reflexivity|].
  eexists. split; reflexivity.
Qed.

(** X7 at a fresh cache. *)
Lemma signals_coalesce_witness :
  exists t1 : TimeoutManager,
    notifyResched (tm (New [])) = Ok t1
    /\ notifyResched t1 = Ok t1
    /\ exists c' : Cache,
         recv_resched (set_tm t1 (New [])) = Some (c', true)
         /\ recv_resched c' = None.
Proof.
  eexists. split; [reflexivity|].
  apply (signals_coalesce (New [])). reflexivity.
Defined.

(** ** Counting what the ladder lists *)

Lemma occurrences_app (k : iface) (l1 l2 : list iface) :
  occurrences k (l1 ++ l2) = (occurrences k l1 + occurrences k l2)%nat.
Proof.
  induction l1 as [|a l1 IH]; simpl; [reflexivity|].
  destruct (decide (k = a)); rewrite IH; reflexivity.
Qed.

Lemma occurrences_pos (k : iface) (l : list iface) :
  (0 < occurrences k l)%nat <-> k ∈ l.
Proof.
  induction l as [|a l IH]; simpl.
  - split; [lia | intros H; apply elem_of_nil in H; contradiction].
  - destruct (decide (k = a)) as [->|Hne].
    + split; [intros _; left | lia].
    + rewrite IH. split; [intros H; right; exact H|].
      intros H. apply elem_of_cons in H as [?|?]; [contradiction | assumption].
Qed.

Lemma occurrences_remove_first (k k0 : iface) (l : list iface) :
  occurrences k (remove_first k0 l)
  = if decide (k = k0) then Nat.pred (occurrences k l) else occurrences k l.
Proof.
  induction l as [|a l IH]; simpl.
  - destruct (decide (k = k0)); reflexivity.
  - destruct (decide (k0 = a)) as [->|Hne]; simpl.
    + destruct (decide (k = a)); reflexivity.
    + rewrite IH.
      destruct (decide (k = k0)) as [->|Hne'];
        destruct (decide (k0 = a)) as [->|Hne2] || destruct (decide (k = a));
        try contradiction; reflexivity.
Qed.

Lemma scheduled_count_app (k : iface) (t : Z) (l1 l2 : list Bucket) :
  scheduled_count k t (l1 ++ l2)
  = (scheduled_count k t l1 + scheduled_count k t l2)%nat.
Proof.
  induction l1 as [|b l1 IH]; simpl; [reflexivity|]. rewrite IH. lia.
Qed.

Lemma scheduled_count_zero (k : iface) (t : Z) (l : list Bucket) :
  Forall (fun b => timeout b <> t) l -> scheduled_count k t l = 0%nat.
Proof.
  induction 1 as [|b l Hb _ IH]; simpl; [reflexivity|].
  unfold listed. rewrite decide_False by exact Hb. exact IH.
Qed.

Lemma scheduled_count_pos (k : iface) (t : Z) (l : list Bucket) :
  (0 < scheduled_count k t l)%nat
  <-> exists b : Bucket, b ∈ l /\ timeout b = t /\ k ∈ data b.
Proof.
  induction l as [|b l IH]; simpl.
  - split; [lia|]. intros (b & Hb & _). apply elem_of_nil in Hb. contradiction.
  - split.
    + intros Hpos. destruct (Nat.eq_dec (listed k t b) 0) as [Hz|Hnz].
      * rewrite Hz in Hpos. apply IH in Hpos as (b' & Hb' & H').
        exists b'. split; [right; exact Hb' | exact H'].
      * unfold listed in Hnz. destruct (decide (timeout b = t)) as [Ht|]; [|lia].
        exists b. split; [left|]. split; [exact Ht|].
        apply occurrences_pos. lia.
    + intros (b' & Hb' & Ht & Hk). apply elem_of_cons in Hb' as [->|Hb'].
      * unfold listed. rewrite decide_True by exact Ht.
        apply occurrences_pos in Hk. lia.
      * assert (0 < scheduled_count k t l)%nat; [|lia].
        apply IH. exists b'. auto.
Qed.

(** On a sorted ladder, no bucket but the one at index [i] has its
    deadline. *)
Lemma scheduled_count_at (k : iface) (t : Z) (ts : list Bucket) (i : nat) (b : Bucket) :
  StronglySorted Z.lt (deadlines ts) ->
  ts !! i = Some b -> timeout b = t ->
  scheduled_count k t (take i ts) = 0%nat
  /\ scheduled_count k t (drop (S i) ts) = 0%nat.
Proof.
  intros Hs Hb Ht.
  rewrite <- (take_drop_middle ts i b Hb) in Hs.
  unfold deadlines in Hs. rewrite fmap_app, fmap_cons in Hs.
  apply StronglySorted_app in Hs as (Hc & _ & Hr).
  apply StronglySorted_cons in Hr as [Hall _].
  split; apply scheduled_count_zero; apply Forall_forall; intros b' Hb' Heq.
  - assert (timeout b' < timeout b); [|lia].
    apply Hc; [|left]. apply list_elem_of_fmap. exists b'. auto.
  - rewrite Forall_forall in Hall.
    assert (timeout b < timeout b'); [|lia].
    apply Hall. apply list_elem_of_fmap. exists b'. auto.
Qed.

Lemma scheduled_count_middle (k : iface) (t : Z) (ts : list Bucket) (i : nat) (b : Bucket) :
  ts !! i = Some b ->
  scheduled_count k t ts
  = (scheduled_count k t (take i ts) + listed k t b
     + scheduled_count k t (drop (S i) ts))%nat.
Proof.
  intros Hb. rewrite <- (take_drop_middle ts i b Hb) at 1.
  rewrite scheduled_count_app. simpl. lia.
Qed.

Lemma scheduled_count_split (k : iface) (t : Z) (ts : list Bucket) (i : nat) :
  scheduled_count k t ts
  = (scheduled_count k t (take i ts) + scheduled_count k t (drop i ts))%nat.
Proof. rewrite <- (take_drop i ts) at 1. apply scheduled_count_app. Qed.

Lemma addKeyTimeout_count (k k0 : iface) (t : Z) (i : nat) (ts ts' : list Bucket)
    (b : Bucket) :
  ts !! i = Some b ->
  addKeyTimeout k0 i ts = Ok ts' ->
  scheduled_count k t ts'
  = (scheduled_count k t ts
     + if decide (timeout b = t /\ k = k0) then 1 else 0)%nat.
Proof.
  intros Hb. unfold addKeyTimeout. rewrite Hb. intros H. injection H as <-.
  pose proof (lookup_lt_Some _ _ _ Hb) as Hlt.
  rewrite insert_take_drop by exact Hlt.
  rewrite (scheduled_count_middle k t ts i b Hb).
  rewrite !scheduled_count_app. simpl. unfold listed. simpl.
  destruct (decide (timeout b = t)) as [Ht|Ht].
  - rewrite occurrences_app. simpl.
    destruct (decide (k = k0)) as [Hk|Hk].
    + rewrite decide_True by auto. lia.
    + rewrite decide_False by tauto. lia.
  - rewrite decide_False by tauto. lia.
Qed.

Lemma delKeyTimeout_count (k k0 : iface) (t : Z) (i : nat) (ts ts' : list Bucket)
    (b : Bucket) :
  ts !! i = Some b ->
  delKeyTimeout k0 i ts = Ok ts' ->
  scheduled_count k t ts'
  = (scheduled_count k t (take i ts)
     + (if decide (timeout b = t) then occurrences k (remove_first k0 (data b)) else 0)
     + scheduled_count k t (drop (S i) ts))%nat.
Proof.
  intros Hb. unfold delKeyTimeout. rewrite Hb.
  pose proof (lookup_lt_Some _ _ _ Hb) as Hlt.
  destruct (data b) as [|k1 rest] eqn:Hkeys; [discriminate|].
  change (if decide (k0 = k1) then rest else k1 :: remove_first k0 rest)
    with (remove_first k0 (k1 :: rest)).
  destruct (remove_first k0 (k1 :: rest)) as [|k2 keys'] eqn:Hrf;
    intros H; injection H as <-.
  - rewrite scheduled_count_app. destruct (decide (timeout b = t)); simpl; lia.
  - rewrite insert_take_drop by exact Hlt.
    rewrite !scheduled_count_app. simpl. unfold listed. simpl. lia.
Qed.

(** What one replayed record does to the ladder, seen from any key [k] and
    deadline [t]. *)
Lemma applyOper_count (k : iface) (t : Z) (kot : LogRec) (ts ts' : list Bucket) :
  ladder_inv ts ->
  applyOper kot ts = Ok ts' ->
  scheduled_count k t ts' = record_effect k t (scheduled_count k t ts) kot.
Proof.
  intros [Hs Hne]. unfold applyOper, record_effect, concerns.
  destruct (search_split ts (timeout kot) Hs) as (Hle & Hlo & Hhi).
  set (i := sort_Search (length ts) (timeout_ge ts (timeout kot))) in *.
  destruct (found ts i (timeout kot)) eqn:Hf.
  - unfold found in Hf. destruct (ts !! i) as [b|] eqn:Hb; [|discriminate].
    apply Z.eqb_eq in Hf.
    destruct (oper (data kot)).
    + intros H. rewrite (addKeyTimeout_count k (key (data kot)) t i ts ts' b Hb H).
      rewrite Hf.
      destruct (decide (timeout kot = t /\ k = key (data kot))) as [[? ?]|Hn].
      * rewrite bool_decide_eq_true_2 by auto. lia.
      * rewrite bool_decide_eq_false_2 by (intros [? ?]; apply Hn; auto). lia.
    + intros H. rewrite (delKeyTimeout_count k (key (data kot)) t i ts ts' b Hb H).
      rewrite (scheduled_count_middle k t ts i b Hb). unfold listed.
      rewrite occurrences_remove_first. rewrite Hf.
      destruct (decide (timeout kot = t)) as [Ht|Ht].
      * destruct (scheduled_count_at k t ts i b Hs Hb) as [-> ->]; [congruence|].
        destruct (decide (k = key (data kot))) as [Hk|Hk].
        -- rewrite bool_decide_eq_true_2 by auto. lia.
        -- rewrite bool_decide_eq_false_2 by (intros [? ?]; apply Hk; auto). lia.
      * rewrite bool_decide_eq_false_2 by tauto. lia.
  - destruct (oper (data kot)).
    + rewrite insertBucket_eq by exact Hle. unfold addKeyTimeout.
      rewrite list_lookup_middle; [|rewrite length_take; lia].
      intros H. injection H as <-.
      rewrite insert_app_r_alt; rewrite length_take; [|lia].
      replace (i - i `min` length ts)%nat with 0%nat by lia. simpl.
      rewrite (scheduled_count_split k t ts i).
      rewrite !scheduled_count_app. simpl. unfold listed. simpl.
      destruct (decide (timeout kot = t)) as [Ht|Ht].
      * destruct (decide (k = key (data kot))) as [Hk|Hk].
        -- rewrite bool_decide_eq_true_2 by auto. lia.
        -- rewrite bool_decide_eq_false_2 by (intros [? ?]; apply Hk; auto). lia.
      * rewrite bool_decide_eq_false_2 by tauto. lia.
    + intros H. injection H as <-.
      destruct (bool_decide (key (data kot) = k /\ timeout kot = t)) eqn:Hc;
        [|reflexivity].
      apply bool_decide_eq_true_1 in Hc as [_ Ht].
      rewrite scheduled_count_zero; [reflexivity|].
      rewrite <- (take_drop i ts). apply Forall_app. split.
      * eapply Forall_impl; [exact Hlo|]. simpl. intros b Hb. lia.
      * pose proof (not_found_later ts (timeout kot) i Hs Hhi Hf) as Hlater.
        unfold deadlines in Hlater. rewrite <- fmap_drop in Hlater.
        rewrite Forall_fmap in Hlater.
        eapply Forall_impl; [exact Hlater|]. simpl. intros b Hb. lia.
Qed.

Lemma replay_count (k : iface) (t : Z) (log : list LogRec) (ts ts' : list Bucket) :
  ladder_inv ts ->
  replay log ts = Ok ts' ->
  scheduled_count k t ts' = log_effect k t log (scheduled_count k t ts).
Proof.
  revert ts. induction log as [|kot log IH]; intros ts Hinv H; simpl in H.
  - injection H as <-. reflexivity.
  - destruct (applyOper_inv kot ts Hinv) as (ts1 & H1 & Hinv1).
    rewrite H1 in H. simpl in H.
    unfold log_effect. simpl. fold (log_effect k t log).
    rewrite <- (applyOper_count k t kot ts ts1 Hinv H1).
    apply IH; assumption.
Qed.

(** ** What a replay does to the ladder *)

(** X8.  Replaying a log on a ladder that satisfies the invariant returns,
    and for every key [k] and deadline [t] the number of times the new
    ladder lists [k] for [t] is the old number run through the records of
    the log in order: each ADD of [k] at [t] adds one, each DEL of [k] at
    [t] takes one away unless there is none, and no other record counts. *)
Theorem replay_effect_on_ladder (log : list LogRec) (ts : list Bucket) :
  ladder_inv ts ->
  exists ts' : list Bucket,
    replay log ts = Ok ts'
    /\ forall (k : iface) (t : Z),
         scheduled_count k t ts' = log_effect k t log (scheduled_count k t ts).
Proof.
  intros Hinv. destruct (replay_inv log ts Hinv) as (ts' & H & _).
  exists ts'. split; [exact H|].
  intros k t. eapply replay_count; eassumption.
Qed.

(** X8 for a log that adds ["a"] and ["h"] at one deadline and takes ["a"]
    away again, on the empty ladder. *)
Lemma replay_effect_on_ladder_witness :
  ladder_inv []
  /\ exists ts' : list Bucket,
       replay [mkTimedData (mkKeyOper kA ADD) 5; mkTimedData (mkKeyOper kH ADD) 5;
               mkTimedData (mkKeyOper kA DEL) 5] [] = Ok ts'
       /\ forall (k : iface) (t : Z),
            scheduled_count k t ts'
            = log_effect k t
                [mkTimedData (mkKeyOper kA ADD) 5; mkTimedData (mkKeyOper kH ADD) 5;
                 mkTimedData (mkKeyOper kA DEL) 5]
                (scheduled_count k t []).
Proof.
  assert (ladder_inv []) as Hinv by (split; constructor).
  split; [exact Hinv|].
  exact (replay_effect_on_ladder _ [] Hinv).
Defined.

(** ** The search of the replay loop *)

Lemma search_index_unique (ts : list Bucket) (t : Z) (i : nat) (b : Bucket) :
  StronglySorted Z.lt (deadlines ts) ->
  ts !! i = Some b -> timeout b = t ->
  sort_Search (length ts) (timeout_ge ts t) = i.
Proof.
  intros Hs Hb Ht.
  destruct (search_split ts t Hs) as (Hle & Hlo & Hhi).
  set (r := sort_Search (length ts) (timeout_ge ts t)) in *.
  pose proof (lookup_lt_Some _ _ _ Hb) as Hlt.
  destruct (Nat.lt_trichotomy r i) as [Hri | [Heq | Hir]]; [|exact Heq|].
  - exfalso.
    destruct (lookup_lt_is_Some_2 ts r ltac:(lia)) as [b' Hb'].
    assert (timeout b' < timeout b) as Hlt'.
    { apply (sorted_lookup_lt (deadlines ts) r i); [exact Hs | exact Hri | |];
        unfold deadlines; rewrite list_lookup_fmap.
      - rewrite Hb'. reflexivity.
      - rewrite Hb. reflexivity. }
    rewrite Forall_lookup in Hhi. specialize (Hhi 0%nat b').
    rewrite lookup_drop, Nat.add_0_r in Hhi. specialize (Hhi Hb'). lia.
  - exfalso. rewrite Forall_lookup in Hlo. specialize (Hlo i b).
    rewrite lookup_take_lt in Hlo by exact Hir. specialize (Hlo Hb). lia.
Qed.

(** X9.  On a ladder sorted by deadline, the index the replay loop computes
    for a deadline [t] separates the buckets before [t] from the others:
    the bucket at index [j] is earlier than [t] exactly when [j] is below
    that index.  So the loop finds a bucket at [t] exactly when the ladder
    has one. *)
Theorem search_locates_deadline (ts : list Bucket) (t : Z) :
  StronglySorted Z.lt (deadlines ts) ->
  let i := sort_Search (length ts) (timeout_ge ts t) in
  (i <= length ts)%nat
  /\ (forall (j : nat) (b : Bucket),
        ts !! j = Some b -> (timeout b < t <-> (j < i)%nat))
  /\ (found ts i t = true <-> t ∈ deadlines ts).
Proof.
  intros Hs i.
  destruct (search_split ts t Hs) as (Hle & Hlo & Hhi). fold i in Hle, Hlo, Hhi.
  split; [exact Hle|]. split.
  - intros j b Hb. split.
    + intros Hlt. destruct (Nat.lt_ge_cases j i) as [Hji|Hij]; [exact Hji|].
      exfalso. rewrite Forall_lookup in Hhi. specialize (Hhi (j - i)%nat b).
      rewrite lookup_drop in Hhi.
      replace (i + (j - i))%nat with j in Hhi by lia. specialize (Hhi Hb). lia.
    + intros Hji. rewrite Forall_lookup in Hlo. apply (Hlo j b).
      rewrite lookup_take_lt by exact Hji. exact Hb.
  - unfold found. split.
    + destruct (ts !! i) as [b|] eqn:Hb; [|discriminate].
      intros Heq. apply Z.eqb_eq in Heq. subst t.
      apply list_elem_of_fmap. exists b. split; [reflexivity|].
      eapply list_elem_of_lookup_2. exact Hb.
    + intros Hin. apply list_elem_of_fmap in Hin as (b & -> & Hb).
      apply list_elem_of_lookup in Hb as [j Hj].
      pose proof (search_index_unique ts (timeout b) j b Hs Hj eq_refl) as Hi.
      fold i in Hi. rewrite Hi, Hj. apply Z.eqb_refl.
Qed.

(** X9 on a ladder of three buckets, searched for the deadline of the
    second. *)
Lemma search_locates_deadline_witness :
  StronglySorted Z.lt
    (deadlines [mkTimedData [kA] 10; mkTimedData [kH] 20; mkTimedData [kC] 30])
  /\ found [mkTimedData [kA] 10; mkTimedData [kH] 20; mkTimedData [kC] 30]
           (sort_Search 3 (timeout_ge
              [mkTimedData [kA] 10; mkTimedData [kH] 20; mkTimedData [kC] 30] 20))
           20 = true.
Proof.
  assert (StronglySorted Z.lt
    (deadlines [mkTimedData [kA] 10; mkTimedData [kH] 20; mkTimedData [kC] 30]))
    as Hs.
  { simpl. repeat constructor. }
  split; [exact Hs|].
  apply (proj2 (proj2 (search_locates_deadline _ 20 Hs))).
  simpl. right. left.
Defined.

Lemma remove_first_app_last (k : iface) (l : list iface) :
  k ∉ l -> remove_first k (l ++ [k]) = l.
Proof.
  induction l as [|a l IH]; intros Hnin; simpl.
  - rewrite decide_True; reflexivity.
  - rewrite decide_False.
    + f_equal. apply IH. intros Hin. apply Hnin. right. exact Hin.
    + intros ->. apply Hnin. left.
Qed.

(** X10.  On a ladder that satisfies the invariant and does not list [k]
    for deadline [t], replaying an ADD of [k] at [t] followed by a DEL of
    [k] at [t] gives back the ladder as it was, whether or not it had a
    bucket at [t]. *)
Theorem replay_ADD_DEL_roundtrip (k : iface) (t : Z) (ts : list Bucket) :
  ladder_inv ts ->
  scheduled_count k t ts = 0%nat ->
  replay [mkTimedData (mkKeyOper k ADD) t; mkTimedData (mkKeyOper k DEL) t] ts
  = Ok ts.
Proof.
  intros Hinv Hzero. pose proof Hinv as [Hs Hne].
  destruct (applyOper_inv (mkTimedData (mkKeyOper k ADD) t) ts Hinv)
    as (ts1 & H1 & Hinv1).
  simpl. rewrite H1. simpl.
  enough (applyOper (mkTimedData (mkKeyOper k DEL) t) ts1 = Ok ts) as ->
    by reflexivity.
  pose proof Hinv1 as [Hs1 Hne1].
  unfold applyOper in H1. simpl in H1.
  destruct (search_split ts t Hs) as (Hle & Hlo & Hhi).
  set (i := sort_Search (length ts) (timeout_ge ts t)) in *.
  destruct (found ts i t) eqn:Hf.
  - unfold found in Hf. destruct (ts !! i) as [b|] eqn:Hb; [|discriminate].
    apply Z.eqb_eq in Hf.
    pose proof (lookup_lt_Some _ _ _ Hb) as Hlt.
    unfold addKeyTimeout in H1. rewrite Hb in H1. injection H1 as <-.
    set (b' := mkTimedData (data b ++ [k]) (timeout b)) in *.
    assert (<[i:=b']> ts !! i = Some b') as Hb'
      by (apply list_lookup_insert_eq; exact Hlt).
    unfold applyOper. simpl.
    rewrite (search_index_unique (<[i:=b']> ts) t i b' Hs1 Hb' Hf).
    unfold found. rewrite Hb'. simpl. rewrite Hf, Z.eqb_refl.
    unfold delKeyTimeout. rewrite Hb'. simpl.
    assert (k ∉ data b) as Hnin.
    { intros Hin. apply occurrences_pos in Hin.
      rewrite (scheduled_count_middle k t ts i b Hb) in Hzero.
      unfold listed in Hzero. rewrite decide_True in Hzero by exact Hf. lia. }
    pose proof (Forall_lookup_1 _ _ _ _ Hne Hb) as Hkeys. simpl in Hkeys.
    destruct (data b) as [|k1 rest] eqn:Hdata; [contradiction|]. simpl.
    change (if decide (k = k1) then rest ++ [k] else k1 :: remove_first k (rest ++ [k]))
      with (remove_first k ((k1 :: rest) ++ [k])).
    rewrite remove_first_app_last by exact Hnin.
    rewrite list_insert_insert_eq.
    f_equal. apply list_insert_id. rewrite Hb. f_equal.
    destruct b as [d to]. simpl in *. subst d. reflexivity.
  - rewrite insertBucket_eq in H1 by exact Hle.
    unfold addKeyTimeout in H1.
    rewrite list_lookup_middle in H1; [|rewrite length_take; lia].
    injection H1 as <-.
    rewrite insert_app_r_alt in *; rewrite length_take in *; try lia.
    replace (i - i `min` length ts)%nat with 0%nat in * by lia. simpl in *.
    set (b' := mkTimedData [k] t) in *.
    assert ((take i ts ++ b' :: drop i ts) !! i = Some b') as Hb'.
    { apply list_lookup_middle. rewrite length_take. lia. }
    unfold applyOper. simpl.
    rewrite (search_index_unique _ t i b' Hs1 Hb' eq_refl).
    unfold found. rewrite Hb'. simpl. rewrite Z.eqb_refl.
    unfold delKeyTimeout. rewrite Hb'. simpl.
    rewrite decide_True by reflexivity.
    f_equal.
    assert (length (take i ts) = i) as Hlen by (rewrite length_take; lia).
    rewrite (take_app_length' (take i ts) (b' :: drop i ts) i (eq_sym Hlen)).
    rewrite (cons_middle b' (take i ts) (drop i ts)), app_assoc.
    rewrite drop_app_length'; [apply take_drop|].
    rewrite length_app, Hlen. simpl. lia.
Qed.

(** X10 on the ladder of the replace run, for a key it does not list. *)
Lemma replay_ADD_DEL_roundtrip_witness :
  ladder_inv (timeouts (tm (state_of race_before_sweep)))
  /\ scheduled_count kH 100000000 (timeouts (tm (state_of race_before_sweep))) = 0%nat
  /\ replay [mkTimedData (mkKeyOper kH ADD) 100000000;
             mkTimedData (mkKeyOper kH DEL) 100000000]
            (timeouts (tm (state_of race_before_sweep)))
     = Ok (timeouts (tm (state_of race_before_sweep))).
Proof.
  assert (ladder_inv (timeouts (tm (state_of race_before_sweep)))) as Hinv
    by exact (reachable_ladder_inv [] _ race_reachable).
  assert (scheduled_count kH 100000000 (timeouts (tm (state_of race_before_sweep)))
          = 0%nat) as Hz by (vm_compute; reflexivity).
  split; [exact Hinv|]. split; [exact Hz|].
  exact (replay_ADD_DEL_roundtrip kH 100000000 _ Hinv Hz).
Defined.

(** ** The expiry sweep and the ladder *)

Lemma filter_later_id (now : Z) (ts : list Bucket) :
  Forall (fun b : Bucket => now < timeout b) ts ->
  filter (fun b : Bucket => now < timeout b) ts = ts.
Proof.
  induction 1 as [|b ts Hb _ IH]; [reflexivity|].
  rewrite filter_cons_True by exact Hb. rewrite IH. reflexivity.
Qed.

Lemma sweep_sorted_ladder (now : Z) (ts : list Bucket)
    (m : gmap iface (TimedData iface)) :
  StronglySorted Z.lt (deadlines ts) ->
  (sweep now ts m).1 = filter (fun b : Bucket => now < timeout b) ts.
Proof.
  revert m. induction ts as [|b ts IH]; intros m Hs; [reflexivity|].
  unfold deadlines in Hs. rewrite fmap_cons in Hs.
  apply StronglySorted_cons in Hs as [Hall Hs]. simpl.
  destruct (Z.ltb_spec now (timeout b)) as [Hlt|Hge].
  - simpl. rewrite filter_cons_True by exact Hlt. f_equal.
    symmetry. apply filter_later_id.
    rewrite Forall_fmap in Hall.
    eapply Forall_impl; [exact Hall|]. simpl. intros b' Hb'. lia.
  - rewrite filter_cons_False by lia. apply IH. exact Hs.
Qed.

Lemma deleteExpiredEntries_filter (now : Z) (c : Cache) :
  StronglySorted Z.lt (deadlines (timeouts (tm c))) ->
  timeouts (tm (deleteExpiredEntries now c))
  = filter (fun b : Bucket => now < timeout b) (timeouts (tm c)).
Proof.
  intros Hs.
  rewrite <- (sweep_sorted_ladder now _ (cdata c) Hs).
  unfold deleteExpiredEntries.
  destruct (timeouts (tm c)) as [|b ts] eqn:Hts; [rewrite Hts; reflexivity|].
  destruct (Z.leb_spec (timeout b) now) as [Hle|Hgt].
  - destruct (sweep now (b :: ts) (cdata c)) as [ts' m]. reflexivity.
  - rewrite Hts. simpl. destruct (Z.ltb_spec now (timeout b)); [reflexivity | lia].
Qed.

Lemma deleteExpiredEntries_later (now : Z) (c : Cache) :
  StronglySorted Z.lt (deadlines (timeouts (tm c))) ->
  Forall (fun b : Bucket => now < timeout b)
         (timeouts (tm (deleteExpiredEntries now c))).
Proof.
  intros Hs. rewrite (deleteExpiredEntries_filter now c Hs).
  apply Forall_forall. intros b Hb.
  apply list_elem_of_filter in Hb as [Hb _]. exact Hb.
Qed.

(** X11.  On a ladder sorted by deadline, [deleteExpiredEntries(now)]
    removes exactly the buckets whose deadline is [now] or earlier: the
    ladder it leaves is the old one without them, in the same order, and so
    every bucket left is strictly later than [now]. *)
Theorem sweep_removes_expired_buckets (now : Z) (c : Cache) :
  StronglySorted Z.lt (deadlines (timeouts (tm c))) ->
  timeouts (tm (deleteExpiredEntries now c))
  = filter (fun b : Bucket => now < timeout b) (timeouts (tm c))
  /\ Forall (fun b : Bucket => now < timeout b)
            (timeouts (tm (deleteExpiredEntries now c))).
Proof.
  intros Hs. split.
  - apply deleteExpiredEntries_filter. exact Hs.
  - apply deleteExpiredEntries_later. exact Hs.
Qed.

(** X11 at the state of the replace run, swept at the deadline of its only
    bucket. *)
Lemma sweep_removes_expired_buckets_witness :
  StronglySorted Z.lt (deadlines (timeouts (tm (state_of race_before_sweep))))
  /\ timeouts (tm (deleteExpiredEntries 100000000 (state_of race_before_sweep)))
     = filter (fun b : Bucket => 100000000 < timeout b)
              (timeouts (tm (state_of race_before_sweep))).
Proof.
  assert (StronglySorted Z.lt (deadlines (timeouts (tm (state_of race_before_sweep)))))
    as Hs by exact (proj1 (reachable_ladder_inv [] _ race_reachable)).
  split; [exact Hs|].
  exact (proj1 (sweep_removes_expired_buckets 100000000 _ Hs)).
Defined.

(** ** [nextPurgeTime] after a purge *)

(** X12.  After [purgeAndResetTimer(now)] on a ladder sorted by deadline,
    [nextPurgeTime] is the deadline of the head bucket, which is strictly
    later than [now], or [MaxInt64] when no bucket is left, in which case
    the timer is stopped. *)
Theorem purge_sets_nextPurgeTime (now : Z) (c : Cache) :
  StronglySorted Z.lt (deadlines (timeouts (tm c))) ->
  match timeouts (tm (purgeAndResetTimer now c)) with
  | [] =>
      nextPurgeTime (tm (purgeAndResetTimer now c)) = MaxInt64
      /\ purgeTimer (tm (purgeAndResetTimer now c)) = None
  | b :: _ =>
      nextPurgeTime (tm (purgeAndResetTimer now c)) = timeout b
      /\ now < timeout b
  end.
Proof.
  intros Hs.
  pose proof (deleteExpiredEntries_later now c Hs) as Hlater.
  unfold purgeAndResetTimer.
  destruct (timeouts (tm (deleteExpiredEntries now c))) as [|b ts] eqn:Hts.
  - simpl. rewrite Hts. simpl. rewrite Hts. split; reflexivity.
  - apply Forall_cons in Hlater as [Hb _].
    destruct (decide (nextPurgeTime (tm (deleteExpiredEntries now c)) = timeout b))
      as [Heq|Hne]; simpl; rewrite Hts; simpl.
    + rewrite decide_True by exact Heq. simpl. rewrite Hts. split; assumption.
    + rewrite decide_False by exact Hne. simpl. rewrite Hts. split; [reflexivity|exact Hb].
Qed.

(** X12 at the state of the replace run. *)
Lemma purge_sets_nextPurgeTime_witness :
  StronglySorted Z.lt (deadlines (timeouts (tm (state_of race_before_sweep))))
  /\ nextPurgeTime (tm (purgeAndResetTimer 100000000 (state_of race_before_sweep)))
     = MaxInt64.
Proof.
  assert (StronglySorted Z.lt (deadlines (timeouts (tm (state_of race_before_sweep)))))
    as Hs by exact (proj1 (reachable_ladder_inv [] _ race_reachable)).
  split; [exact Hs|].
  pose proof (purge_sets_nextPurgeTime 100000000 (state_of race_before_sweep) Hs) as H.
  assert (timeouts (tm (purgeAndResetTimer 100000000 (state_of race_before_sweep))) = [])
    as Hemp by (vm_compute; reflexivity).
  rewrite Hemp in H. exact (proj1 H).
Defined.

(** ** Every entry is scheduled *)

Lemma log_effect_app (k : iface) (t : Z) (l1 l2 : list LogRec) (n : nat) :
  log_effect k t (l1 ++ l2) n = log_effect k t l2 (log_effect k t l1 n).
Proof. unfold log_effect. apply foldl_app. Qed.

Lemma record_effect_other_key (k : iface) (t : Z) (n : nat) (r : LogRec) :
  key (data r) <> k -> record_effect k t n r = n.
Proof.
  intros Hne. unfold record_effect, concerns.
  rewrite bool_decide_eq_false_2; [reflexivity | tauto].
Qed.

Lemma log_effect_other_key (k : iface) (t : Z) (log : list LogRec) (n : nat) :
  Forall (fun r => key (data r) <> k) log -> log_effect k t log n = n.
Proof.
  intros Hall. revert n. induction Hall as [|r log Hr _ IH]; intros n; [reflexivity|].
  unfold log_effect. simpl. rewrite record_effect_other_key by exact Hr. apply IH.
Qed.

Lemma Close_fields (c c' : Cache) :
  Close c = Ok c' ->
  cdata c' = cdata c /\ operLog (tm c') = operLog (tm c)
  /\ timeouts (tm c') = timeouts (tm c).
Proof.
  unfold Close, tmClose. simpl.
  destruct (closed (resched (tm c))); [discriminate|].
  intros H. injection H as <-. repeat split.
Qed.

Lemma recv_resched_fields (c c' : Cache) (ok : bool) :
  recv_resched c = Some (c', ok) ->
  cdata c' = cdata c /\ operLog (tm c') = operLog (tm c)
  /\ timeouts (tm c') = timeouts (tm c).
Proof.
  unfold recv_resched. intros H.
  destruct (buffered (resched (tm c))).
  - injection H as <- <-. repeat split.
  - destruct (closed (resched (tm c))); [|discriminate].
    injection H as <- <-. repeat split.
Qed.

Lemma timer_fire_fields (now : Z) (c c' : Cache) :
  timer_fire now c = Some c' ->
  cdata c' = cdata c /\ operLog (tm c') = operLog (tm c)
  /\ timeouts (tm c') = timeouts (tm c).
Proof.
  unfold timer_fire. intros H.
  destruct (purgeTimer (tm c)) as [e|]; [|discriminate].
  destruct (e <=? now); [|discriminate].
  injection H as <-. repeat split.
Qed.

Lemma updateTimeoutsFromPendingList_fields (c c' : Cache) :
  updateTimeoutsFromPendingList c = Ok c' ->
  cdata c' = cdata c /\ operLog (tm c') = []
  /\ replay (operLog (tm c)) (timeouts (tm c)) = Ok (timeouts (tm c')).
Proof.
  unfold updateTimeoutsFromPendingList. simpl.
  destruct (replay (operLog (tm c)) (timeouts (tm c))) as [ts|]; [|discriminate].
  intros H. injection H as <-. repeat split.
Qed.

Lemma deleteExpiredEntries_fields (now : Z) (c : Cache) :
  cdata (deleteExpiredEntries now c) = (sweep now (timeouts (tm c)) (cdata c)).2
  /\ timeouts (tm (deleteExpiredEntries now c)) = (sweep now (timeouts (tm c)) (cdata c)).1
  /\ operLog (tm (deleteExpiredEntries now c)) = operLog (tm c).
Proof.
  unfold deleteExpiredEntries.
  destruct (timeouts (tm c)) as [|b ts] eqn:Hts; [rewrite Hts; repeat split|].
  destruct (Z.leb_spec (timeout b) now) as [Hle|Hgt].
  - destruct (sweep now (b :: ts) (cdata c)) as [ts' m]. repeat split.
  - rewrite Hts. simpl. destruct (Z.ltb_spec now (timeout b)); [repeat split | lia].
Qed.

Lemma purgeAndResetTimer_fields (now : Z) (c : Cache) :
  cdata (purgeAndResetTimer now c) = (sweep now (timeouts (tm c)) (cdata c)).2
  /\ timeouts (tm (purgeAndResetTimer now c)) = (sweep now (timeouts (tm c)) (cdata c)).1
  /\ operLog (tm (purgeAndResetTimer now c)) = operLog (tm c).
Proof.
  destruct (deleteExpiredEntries_fields now c) as (Hd & Ht & Hl).
  rewrite <- Hd, <- Ht, <- Hl. split; [reflexivity|]. split.
  - apply purgeAndResetTimer_frame.
  - unfold purgeAndResetTimer. cbv zeta. simpl.
    repeat case_match; reflexivity.
Qed.

Lemma deleteKeys_lookup_Some (keys : list iface) (m : gmap iface (TimedData iface))
    (k : iface) (e : TimedData iface) :
  deleteKeys keys m !! k = Some e -> m !! k = Some e /\ k ∉ keys.
Proof.
  rewrite deleteKeys_lookup. destruct (decide (k ∈ keys)); [discriminate|].
  intros H. split; assumption.
Qed.

(** An entry that survives the sweep was there before, and the ladder lists
    it as often as before. *)
Lemma sweep_survivor (now : Z) (ts : list Bucket) (m : gmap iface (TimedData iface))
    (k : iface) (e : TimedData iface) :
  (sweep now ts m).2 !! k = Some e ->
  m !! k = Some e
  /\ forall t : Z, scheduled_count k t (sweep now ts m).1 = scheduled_count k t ts.
Proof.
  revert m. induction ts as [|b ts IH]; intros m; simpl.
  - intros H. split; [exact H | reflexivity].
  - destruct (now <? timeout b).
    + intros H. split; [exact H | reflexivity].
    + intros H. apply IH in H as [Hm Hcount].
      apply deleteKeys_lookup_Some in Hm as [Hm Hnin].
      split; [exact Hm|]. intros t. rewrite Hcount.
      unfold listed. destruct (decide (timeout b = t)); [|reflexivity].
      destruct (Nat.eq_dec (occurrences k (data b)) 0) as [->|Hpos]; [reflexivity|].
      exfalso. apply Hnin. apply occurrences_pos. lia.
Qed.

Lemma replay_pending_count (c c' : Cache) (k : iface) (t : Z) :
  ladder_inv (timeouts (tm c)) ->
  updateTimeoutsFromPendingList c = Ok c' ->
  pending_count k t c' = pending_count k t c.
Proof.
  intros Hinv H.
  apply updateTimeoutsFromPendingList_fields in H as (_ & Hl & Hr).
  unfold pending_count. rewrite Hl. simpl.
  eapply replay_count; eassumption.
Qed.

Lemma Put_pending_count (k v : iface) (timeoutMs now : Z) (c c' : Cache)
    (k' : iface) (t' : Z) :
  0 < timeoutMs ->
  Put k v timeoutMs now c = Ok c' ->
  let oTo := match cdata c !! k with Some e => timeout e | None => 0 end in
  cdata c' = <[k := mkTimedData v (deadline timeoutMs now)]> (cdata c)
  /\ pending_count k' t' c'
     = log_effect k' t'
         ((if oTo =? 0 then [] else [mkTimedData (mkKeyOper k DEL) oTo])
          ++ [mkTimedData (mkKeyOper k ADD) (deadline timeoutMs now)])
         (pending_count k' t' c).
Proof.
  intros Hpos Hput.
  pose proof (Put_Ok_fields k v timeoutMs now c c' Hpos Hput)
    as (Hd & Hl & _ & Ht & _).
  pose proof (Put_locked_fields k v timeoutMs now c) as (Hd1 & Hl1 & _ & Ht1 & _).
  cbv zeta in *. rewrite Hd1 in Hd. rewrite Hl1 in Hl. rewrite Ht1 in Ht.
  split; [exact Hd|].
  unfold pending_count. rewrite Hl, Ht. apply log_effect_app.
Qed.

Lemma Remove_pending_count (k : iface) (vt : TimedData iface) (c c' : Cache)
    (r : iface) (k' : iface) (t' : Z) :
  cdata c !! k = Some vt ->
  Remove k c = Ok (c', r) ->
  cdata c' = delete k (cdata c)
  /\ pending_count k' t' c'
     = record_effect k' t' (pending_count k' t' c)
         (mkTimedData (mkKeyOper k DEL) (timeout vt)).
Proof.
  intros Hk Hrem.
  pose proof (Remove_Ok_fields k vt c c' r Hk Hrem) as (_ & Hd & Hl & _ & Ht & _).
  pose proof (Remove_locked_fields k vt c) as (Hd1 & Hl1 & _ & Ht1 & _).
  cbv zeta in *. rewrite Hd1 in Hd. rewrite Hl1 in Hl. rewrite Ht1 in Ht.
  split; [exact Hd|].
  unfold pending_count. rewrite Hl, Ht. rewrite log_effect_app. reflexivity.
Qed.

Lemma live_scheduled_Put (k v : iface) (timeoutMs now : Z) (c c' : Cache) :
  Put k v timeoutMs now c = Ok c' -> live_scheduled c -> live_scheduled c'.
Proof.
  intros Hput Hlive.
  destruct (Z.leb_spec timeoutMs 0) as [Hle|Hpos].
  { unfold Put in Hput. destruct (Z.leb_spec timeoutMs 0); [|lia].
    injection Hput as <-. exact Hlive. }
  intros k' e' Hk'.
  destruct (Put_pending_count k v timeoutMs now c c' k' (timeout e') Hpos Hput)
    as [Hd ->].
  rewrite Hd in Hk'. rewrite log_effect_app.
  destruct (decide (k' = k)) as [->|Hne].
  - rewrite lookup_insert_eq in Hk'. injection Hk' as <-. simpl.
    unfold log_effect at 1. simpl. unfold record_effect, concerns. simpl.
    rewrite bool_decide_eq_true_2 by auto. lia.
  - rewrite lookup_insert_ne in Hk' by congruence.
    rewrite !log_effect_other_key.
    + apply Hlive. exact Hk'.
    + destruct (_ =? 0); repeat constructor; simpl; congruence.
    + repeat constructor; simpl; congruence.
Qed.

Lemma live_scheduled_Remove (k : iface) (c c' : Cache) (r : iface) :
  Remove k c = Ok (c', r) -> live_scheduled c -> live_scheduled c'.
Proof.
  intros Hrem Hlive.
  destruct (cdata c !! k) as [vt|] eqn:Hk.
  - intros k' e' Hk'.
    destruct (Remove_pending_count k vt c c' r k' (timeout e') Hk Hrem) as [Hd ->].
    rewrite Hd in Hk'. apply lookup_delete_Some in Hk' as [Hne Hk'].
    rewrite record_effect_other_key by exact Hne. apply Hlive. exact Hk'.
  - unfold Remove in Hrem. rewrite Hk in Hrem. injection Hrem as <- _. exact Hlive.
Qed.

Lemma live_scheduled_same (c c' : Cache) :
  cdata c' = cdata c -> operLog (tm c') = operLog (tm c) ->
  timeouts (tm c') = timeouts (tm c) ->
  live_scheduled c -> live_scheduled c'.
Proof.
  intros Hd Hl Ht Hlive k e Hk. unfold pending_count. rewrite Hl, Ht.
  apply Hlive. rewrite <- Hd. exact Hk.
Qed.

Lemma live_scheduled_replay (c c' : Cache) :
  ladder_inv (timeouts (tm c)) ->
  updateTimeoutsFromPendingList c = Ok c' -> live_scheduled c -> live_scheduled c'.
Proof.
  intros Hinv H Hlive k e Hk.
  rewrite (replay_pending_count c c' k (timeout e) Hinv H).
  apply updateTimeoutsFromPendingList_fields in H as (Hd & _).
  apply Hlive. rewrite <- Hd. exact Hk.
Qed.

Lemma live_scheduled_purge (now : Z) (c : Cache) :
  live_scheduled c -> live_scheduled (purgeAndResetTimer now c).
Proof.
  intros Hlive k e Hk.
  destruct (purgeAndResetTimer_fields now c) as (Hd & Ht & Hl).
  rewrite Hd in Hk. apply sweep_survivor in Hk as [Hk Hcount].
  unfold pending_count. rewrite Hl, Ht, Hcount. apply Hlive. exact Hk.
Qed.

Lemma live_scheduled_handleResched (now : Z) (c c' : Cache) :
  ladder_inv (timeouts (tm c)) ->
  handleResched now c = Ok c' -> live_scheduled c -> live_scheduled c'.
Proof.
  intros Hinv H Hlive. unfold handleResched in H.
  destruct (updateTimeoutsFromPendingList c) as [c1|] eqn:H1; [|discriminate].
  injection H as <-. apply live_scheduled_purge.
  eapply live_scheduled_replay; eassumption.
Qed.

Lemma step_live_scheduled (c c' : Cache) :
  step c c' -> ladder_inv (timeouts (tm c)) -> live_scheduled c -> live_scheduled c'.
Proof.
  intros Hstep Hinv Hlive. destruct Hstep as
    [k v t now c c' H | k c c' v H | c c' H | c c' H | now c
    | c c' Hrun H | now c c' Hrun H | w now c c' H].
  - eapply live_scheduled_Put; eassumption.
  - eapply live_scheduled_Remove; eassumption.
  - apply Close_fields in H as (Hd & Hl & Ht).
    eapply live_scheduled_same; eassumption.
  - eapply live_scheduled_replay; eassumption.
  - apply live_scheduled_purge. exact Hlive.
  - apply recv_resched_fields in H as (Hd & Hl & Ht).
    eapply live_scheduled_same; eassumption.
  - apply timer_fire_fields in H as (Hd & Hl & Ht).
    eapply live_scheduled_same; eassumption.
  - unfold purger_iter in H. destruct (purgerRunning c); [|discriminate].
    destruct w.
    + destruct (recv_resched c) as [[c1 ok]|] eqn:Hrecv; [|discriminate].
      apply recv_resched_fields in Hrecv as (Hd & Hl & Ht).
      assert (live_scheduled c1) as Hlive1
        by (eapply live_scheduled_same; eassumption).
      destruct ok.
      * injection H as H. eapply live_scheduled_handleResched; [|exact H|exact Hlive1].
        rewrite Ht. exact Hinv.
      * injection H as <-. exact Hlive1.
    + destruct (timer_fire now c) as [c1|] eqn:Hfire; [|discriminate].
      apply timer_fire_fields in Hfire as (Hd & Hl & Ht).
      injection H as H. eapply live_scheduled_handleResched; [|exact H|].
      * rewrite Ht. exact Hinv.
      * eapply live_scheduled_same; eassumption.
Qed.

Lemma reachable_live_scheduled (args : list Z) (c : Cache) :
  reachable args c -> live_scheduled c.
Proof.
  induction 1 as [|c c' Hreach IH Hstep].
  - intros k e Hk. simpl in Hk. rewrite lookup_empty in Hk. discriminate.
  - eapply step_live_scheduled; [exact Hstep | | exact IH].
    eapply reachable_ladder_inv. exact Hreach.
Qed.

(** X13.  In every state the system can reach, each entry of the map is on
    record in the ladder or in the pending log: a replay of the pending log
    succeeds, and the ladder it gives has a bucket at the entry's deadline
    that lists its key.  (Whether and when the purger wakes to replay the
    log is another matter.) *)
Theorem live_entries_are_scheduled (args : list Z) (c : Cache) :
  reachable args c ->
  exists ts' : list Bucket,
    replay (operLog (tm c)) (timeouts (tm c)) = Ok ts'
    /\ forall (k : iface) (e : TimedData iface),
         cdata c !! k = Some e ->
         exists b : Bucket, b ∈ ts' /\ timeout b = timeout e /\ k ∈ data b.
Proof.
  intros Hreach.
  pose proof (reachable_ladder_inv args c Hreach) as Hinv.
  destruct (replay_inv (operLog (tm c)) (timeouts (tm c)) Hinv) as (ts' & Hrep & _).
  exists ts'. split; [exact Hrep|].
  intros k e Hk. apply scheduled_count_pos.
  rewrite (replay_count k (timeout e) _ _ ts' Hinv Hrep).
  apply (reachable_live_scheduled args c Hreach k e Hk).
Qed.

(** X13 at the state of the replace run: ["a"] is stored with deadline
    200 ms and only the log knows it. *)
Lemma live_entries_are_scheduled_witness :
  reachable [] (state_of race_before_sweep)
  /\ exists ts' : list Bucket,
       replay (operLog (tm (state_of race_before_sweep)))
              (timeouts (tm (state_of race_before_sweep))) = Ok ts'
       /\ forall (k : iface) (e : TimedData iface),
            cdata (state_of race_before_sweep) !! k = Some e ->
            exists b : Bucket, b ∈ ts' /\ timeout b = timeout e /\ k ∈ data b.
Proof.
  split; [exact race_reachable|].
  exact (live_entries_are_scheduled [] _ race_reachable).
Defined.

(** ** What a wake-up evicts *)

(** X14.  From every state the system can reach, a wake-up of the purger
    that no client call interrupts ([handleResched] run as a whole, reading
    the clock at [now]) returns, adds no entry to the map and changes none,
    and leaves no entry whose deadline is [now] or earlier. *)
Theorem wake_up_evicts_expired (args : list Z) (now : Z) (c : Cache) :
  reachable args c ->
  exists c' : Cache,
    handleResched now c = Ok c'
    /\ forall (k : iface) (e : TimedData iface),
         cdata c' !! k = Some e -> cdata c !! k = Some e /\ now < timeout e.
Proof.
  intros Hreach.
  pose proof (reachable_ladder_inv args c Hreach) as Hinv.
  destruct (updateTimeoutsFromPendingList_inv c Hinv) as (c1 & H1 & Hinv1).
  assert (reachable args c1) as Hreach1.
  { eapply reach_step; [exact Hreach | apply step_replay; exact H1]. }
  unfold handleResched. rewrite H1. simpl.
  eexists. split; [reflexivity|].
  intros k e Hk.
  destruct (purgeAndResetTimer_fields now c1) as (Hd & _).
  pose proof Hk as Hk'. rewrite Hd in Hk'.
  apply sweep_survivor in Hk' as [Hk1 _].
  pose proof (updateTimeoutsFromPendingList_fields c c1 H1) as (Hd1 & Hl1 & _).
  split; [rewrite <- Hd1; exact Hk1|].
  destruct (Z.lt_ge_cases now (timeout e)) as [Hlt|Hge]; [exact Hlt|].
  exfalso.
  pose proof (reachable_live_scheduled args c1 Hreach1 k e Hk1) as Hpos.
  unfold pending_count in Hpos. rewrite Hl1 in Hpos. simpl in Hpos.
  apply scheduled_count_pos in Hpos as (b & Hb & Ht & Hin).
  rewrite Hd in Hk.
  rewrite (sweep_deleted now (timeouts (tm c1)) (cdata c1) b k) in Hk;
    [discriminate | exact (proj1 Hinv1) | exact Hb | lia | exact Hin].
Qed.

(** X14 at the state of the replace run, for a whole wake-up after both
    deadlines. *)
Lemma wake_up_evicts_expired_witness :
  reachable [] (state_of race_before_sweep)
  /\ exists c' : Cache,
       handleResched 300000000 (state_of race_before_sweep) = Ok c'
       /\ forall (k : iface) (e : TimedData iface),
            cdata c' !! k = Some e ->
            cdata (state_of race_before_sweep) !! k = Some e
            /\ 300000000 < timeout e.
Proof.
  split; [exact race_reachable|].
  exact (wake_up_evicts_expired [] 300000000 _ race_reachable).
Defined.

(** ** Wake-ups that no client call interrupts *)

Lemma areachable_reachable (args : list Z) (c : Cache) :
  areachable args c -> reachable args c.
Proof.
  induction 1 as [|c c' _ IH Hstep]; [apply reach_New|].
  eapply reach_step; [exact IH|].
  destruct Hstep as [k v t now c c' _ H | k c c' v H | c c' H | w now c c' H].
  - eapply step_Put; exact H.
  - eapply step_Remove; exact H.
  - eapply step_Close; exact H.
  - eapply step_purger; exact H.
Qed.

Lemma schedule_exact_same (c c' : Cache) :
  cdata c' = cdata c -> operLog (tm c') = operLog (tm c) ->
  timeouts (tm c') = timeouts (tm c) ->
  schedule_exact c -> schedule_exact c'.
Proof.
  intros Hd Hl Ht Hex k t. unfold pending_count. rewrite Hl, Ht, Hd. apply Hex.
Qed.

Lemma no_zero_deadline_same (c c' : Cache) :
  cdata c' = cdata c -> no_zero_deadline c -> no_zero_deadline c'.
Proof. intros Hd Hnz k e Hk. rewrite Hd in Hk. eapply Hnz. exact Hk. Qed.

Lemma exact_Put (k v : iface) (timeoutMs now : Z) (c c' : Cache) :
  deadline timeoutMs now <> 0 ->
  Put k v timeoutMs now c = Ok c' ->
  schedule_exact c -> no_zero_deadline c ->
  schedule_exact c' /\ no_zero_deadline c'.
Proof.
  intros Hd0 Hput Hex Hnz.
  destruct (Z.leb_spec timeoutMs 0) as [Hle|Hpos].
  { unfold Put in Hput. destruct (Z.leb_spec timeoutMs 0); [|lia].
    injection Hput as <-. split; assumption. }
  split.
  - intros k' t'.
    destruct (Put_pending_count k v timeoutMs now c c' k' t' Hpos Hput) as [Hd ->].
    rewrite Hd, log_effect_app. rewrite (Hex k' t').
    destruct (decide (k' = k)) as [->|Hne].
    + rewrite lookup_insert_eq. simpl.
      destruct (cdata c !! k) as [e0|] eqn:Hk; simpl.
      * pose proof (Hnz k e0 Hk) as Hnz0.
        destruct (Z.eqb_spec (timeout e0) 0) as [|_]; [contradiction|].
        unfold log_effect. simpl. unfold record_effect, concerns. simpl.
        repeat case_decide; repeat case_bool_decide; simplify_eq; try tauto;
          try reflexivity; try (exfalso; naive_solver).
      * unfold log_effect. simpl. unfold record_effect, concerns. simpl.
        repeat case_decide; repeat case_bool_decide; simplify_eq; try tauto;
          try reflexivity; try (exfalso; naive_solver).
    + rewrite lookup_insert_ne by congruence.
      rewrite !log_effect_other_key; [reflexivity | |].
      * destruct (_ =? 0); repeat constructor; simpl; congruence.
      * repeat constructor; simpl; congruence.
  - intros k' e' Hk'.
    destruct (Put_pending_count k v timeoutMs now c c' k' 0 Hpos Hput) as [Hd _].
    rewrite Hd in Hk'. destruct (decide (k' = k)) as [->|Hne].
    + rewrite lookup_insert_eq in Hk'. injection Hk' as <-. exact Hd0.
    + rewrite lookup_insert_ne in Hk' by congruence. eapply Hnz. exact Hk'.
Qed.

Lemma exact_Remove (k : iface) (c c' : Cache) (r : iface) :
  Remove k c = Ok (c', r) ->
  schedule_exact c -> no_zero_deadline c ->
  schedule_exact c' /\ no_zero_deadline c'.
Proof.
  intros Hrem Hex Hnz.
  destruct (cdata c !! k) as [vt|] eqn:Hk.
  - split.
    + intros k' t'.
      destruct (Remove_pending_count k vt c c' r k' t' Hk Hrem) as [Hd ->].
      rewrite Hd, (Hex k' t').
      destruct (decide (k' = k)) as [->|Hne].
      * rewrite lookup_delete_eq, Hk. simpl.
        unfold record_effect, concerns. simpl.
        repeat case_decide; repeat case_bool_decide; simplify_eq; try tauto;
          try reflexivity; try (exfalso; naive_solver).
      * rewrite lookup_delete_ne by congruence.
        rewrite record_effect_other_key; [reflexivity | simpl; congruence].
    + intros k' e' Hk'.
      destruct (Remove_pending_count k vt c c' r k' 0 Hk Hrem) as [Hd _].
      rewrite Hd in Hk'. apply lookup_delete_Some in Hk' as [_ Hk'].
      eapply Hnz. exact Hk'.
  - unfold Remove in Hrem. rewrite Hk in Hrem. injection Hrem as <- _.
    split; assumption.
Qed.

Lemma sweep_exact (now : Z) (ts : list Bucket) (m : gmap iface (TimedData iface)) :
  (forall (k : iface) (t : Z),
     scheduled_count k t ts
     = if decide (timeout <$> m !! k = Some t) then 1%nat else 0%nat) ->
  forall (k : iface) (t : Z),
    scheduled_count k t (sweep now ts m).1
    = if decide (timeout <$> (sweep now ts m).2 !! k = Some t) then 1%nat else 0%nat.
Proof.
  revert m. induction ts as [|b ts IH]; intros m Hex k t; simpl; [apply Hex|].
  destruct (now <? timeout b); [apply Hex|].
  apply IH. clear k t. intros k t.
  rewrite deleteKeys_lookup.
  pose proof (Hex k t) as Ht. pose proof (Hex k (timeout b)) as Hb.
  simpl in Ht, Hb. unfold listed in Ht, Hb.
  rewrite decide_True in Hb by reflexivity.
  destruct (decide (k ∈ data b)) as [Hin|Hnin].
  - apply occurrences_pos in Hin.
    change (timeout <$> (None : option (TimedData iface))) with (@None Z).
    destruct (decide (@None Z = Some t)) as [Hbad|_]; [discriminate|].
    destruct (decide (timeout <$> m !! k = Some (timeout b))) as [Hm|]; [|lia].
    destruct (decide (timeout b = t)) as [<-|Hne]; [lia|].
    simpl in Ht. rewrite Ht. rewrite decide_False; [reflexivity|].
    rewrite Hm. intros Heq. injection Heq as Heq. contradiction.
  - assert (occurrences k (data b) = 0%nat) as Hocc.
    { destruct (Nat.eq_dec (occurrences k (data b)) 0) as [|Hpos]; [assumption|].
      exfalso. apply Hnin. apply occurrences_pos. lia. }
    rewrite Hocc in Ht. destruct (decide (timeout b = t)); simpl in Ht; exact Ht.
Qed.

Lemma exact_handleResched (now : Z) (c c' : Cache) :
  ladder_inv (timeouts (tm c)) ->
  handleResched now c = Ok c' ->
  schedule_exact c -> no_zero_deadline c ->
  schedule_exact c' /\ no_zero_deadline c'.
Proof.
  intros Hinv H Hex Hnz. unfold handleResched in H.
  destruct (updateTimeoutsFromPendingList c) as [c1|] eqn:H1; [|discriminate].
  injection H as <-.
  pose proof (updateTimeoutsFromPendingList_fields c c1 H1) as (Hd1 & Hl1 & _).
  destruct (purgeAndResetTimer_fields now c1) as (Hd & Ht & Hl).
  split.
  - intros k t. unfold pending_count. rewrite Hl, Hl1, Ht, Hd. simpl.
    apply sweep_exact. clear k t. intros k t.
    pose proof (replay_pending_count c c1 k t Hinv H1) as Hp.
    unfold pending_count at 1 in Hp. rewrite Hl1 in Hp. simpl in Hp.
    rewrite Hp, Hd1. apply Hex.
  - intros k e Hk. rewrite Hd in Hk. apply sweep_survivor in Hk as [Hk _].
    rewrite Hd1 in Hk. eapply Hnz. exact Hk.
Qed.

Lemma astep_exact (c c' : Cache) :
  astep c c' -> ladder_inv (timeouts (tm c)) ->
  schedule_exact c /\ no_zero_deadline c ->
  schedule_exact c' /\ no_zero_deadline c'.
Proof.
  intros Hstep Hinv [Hex Hnz].
  destruct Hstep as [k v t now c c' Hd0 H | k c c' v H | c c' H | w now c c' H].
  - eapply exact_Put; eassumption.
  - eapply exact_Remove; eassumption.
  - apply Close_fields in H as (Hd & Hl & Ht). split.
    + eapply schedule_exact_same; eassumption.
    + eapply no_zero_deadline_same; eassumption.
  - unfold purger_iter in H. destruct (purgerRunning c); [|discriminate].
    destruct w.
    + destruct (recv_resched c) as [[c1 ok]|] eqn:Hrecv; [|discriminate].
      apply recv_resched_fields in Hrecv as (Hd & Hl & Ht).
      assert (schedule_exact c1 /\ no_zero_deadline c1) as [Hex1 Hnz1].
      { split; [eapply schedule_exact_same | eapply no_zero_deadline_same];
          eassumption. }
      destruct ok.
      * injection H as H. eapply exact_handleResched; [|exact H| |]; try assumption.
        rewrite Ht. exact Hinv.
      * injection H as <-. split; assumption.
    + destruct (timer_fire now c) as [c1|] eqn:Hfire; [|discriminate].
      apply timer_fire_fields in Hfire as (Hd & Hl & Ht).
      injection H as H. eapply exact_handleResched; [|exact H| |].
      * rewrite Ht. exact Hinv.
      * eapply schedule_exact_same; eassumption.
      * eapply no_zero_deadline_same; eassumption.
Qed.

Lemma areachable_exact (args : list Z) (c : Cache) :
  areachable args c -> schedule_exact c /\ no_zero_deadline c.
Proof.
  induction 1 as [|c c' Hreach IH Hstep].
  - split.
    + intros k t. unfold pending_count. simpl. rewrite lookup_empty. reflexivity.
    + intros k e Hk. simpl in Hk. rewrite lookup_empty in Hk. discriminate.
  - eapply astep_exact; [exact Hstep | | exact IH].
    eapply reachable_ladder_inv. apply areachable_reachable. exact Hreach.
Qed.

Lemma race_scheduled_areachable : areachable [] (state_of race_scheduled).
Proof.
  apply (areach_step [] (state_of race_stored)).
  - apply (areach_step [] (New [])); [apply areach_New|].
    apply (astep_Put kA (IInt 1) 100 0).
    + vm_compute. discriminate.
    + vm_compute. reflexivity.
  - apply (astep_purger WResched 0). vm_compute. reflexivity.
Qed.

Lemma handleResched_exact_eviction (args : list Z) (now : Z) (c c' : Cache) :
  areachable args c ->
  handleResched now c = Ok c' ->
  forall (k : iface) (e : TimedData iface),
    cdata c' !! k = Some e <-> cdata c !! k = Some e /\ now < timeout e.
Proof.
  intros Hreach H k e.
  pose proof (areachable_reachable args c Hreach) as Hr.
  pose proof (reachable_ladder_inv args c Hr) as Hinv.
  destruct (areachable_exact args c Hreach) as [Hex _].
  unfold handleResched in H.
  destruct (updateTimeoutsFromPendingList c) as [c1|] eqn:H1; [|discriminate].
  injection H as <-.
  pose proof (updateTimeoutsFromPendingList_fields c c1 H1) as (Hd1 & Hl1 & _).
  destruct (updateTimeoutsFromPendingList_inv c Hinv) as (c1' & H1' & Hinv1).
  assert (c1' = c1) as -> by congruence.
  destruct (purgeAndResetTimer_fields now c1) as (Hd & _).
  assert (forall (k0 : iface) (t : Z),
            scheduled_count k0 t (timeouts (tm c1))
            = if decide (timeout <$> cdata c !! k0 = Some t) then 1%nat else 0%nat)
    as Hex1.
  { intros k0 t. pose proof (replay_pending_count c c1 k0 t Hinv H1) as Hp.
    unfold pending_count at 1 in Hp. rewrite Hl1 in Hp. simpl in Hp.
    rewrite Hp. apply Hex. }
  rewrite Hd. split.
  - intros Hk. pose proof Hk as Hk'. apply sweep_survivor in Hk' as [Hk1 _].
    split; [rewrite <- Hd1; exact Hk1|].
    destruct (Z.lt_ge_cases now (timeout e)) as [Hlt|Hge]; [exact Hlt|].
    exfalso.
    assert (0 < scheduled_count k (timeout e) (timeouts (tm c1)))%nat as Hpos.
    { rewrite Hex1, <- Hd1, Hk1. simpl. rewrite decide_True by reflexivity. lia. }
    apply scheduled_count_pos in Hpos as (b & Hb & Ht & Hin).
    rewrite (sweep_deleted now (timeouts (tm c1)) (cdata c1) b k) in Hk;
      [discriminate | exact (proj1 Hinv1) | exact Hb | lia | exact Hin].
  - intros [Hk Hlt]. rewrite sweep_kept; [rewrite Hd1; exact Hk|].
    intros b Hb Hexp Hin.
    assert (0 < scheduled_count k (timeout b) (timeouts (tm c1)))%nat as Hpos.
    { apply scheduled_count_pos. exists b. auto. }
    rewrite Hex1, Hk in Hpos. simpl in Hpos.
    destruct (decide (Some (timeout e) = Some (timeout b))) as [Heq|]; [|lia].
    injection Heq as Heq. lia.
Qed.

(** X15.  When no client call falls inside the purger's wake-ups (and no
    deadline is 0), a wake-up that reads the clock at [now] evicts exactly
    the entries whose deadline is [now] or earlier: an entry is in the map
    afterwards if and only if it was there before with a deadline later
    than [now]. *)
Theorem uninterrupted_wake_up_evicts_exactly (args : list Z) (now : Z) (c c' : Cache) :
  areachable args c ->
  handleResched now c = Ok c' ->
  forall (k : iface) (e : TimedData iface),
    cdata c' !! k = Some e <-> cdata c !! k = Some e /\ now < timeout e.
Proof.
  intros Hreach H k e.
  exact (handleResched_exact_eviction args now c c' Hreach H k e).
Qed.

(** X15 at the state where ["a"] has been stored for 100 ms and scheduled,
    woken half way to its deadline. *)
Lemma uninterrupted_wake_up_evicts_exactly_witness :
  areachable [] (state_of race_scheduled)
  /\ handleResched 50000000 (state_of race_scheduled)
     = Ok (state_of (handleResched 50000000 (state_of race_scheduled)))
  /\ cdata (state_of (handleResched 50000000 (state_of race_scheduled))) !! kA
     = Some (mkTimedData (IInt 1) 100000000).
Proof.
  assert (handleResched 50000000 (state_of race_scheduled)
          = Ok (state_of (handleResched 50000000 (state_of race_scheduled)))) as H
    by (vm_compute; reflexivity).
  split; [exact race_scheduled_areachable|]. split; [exact H|].
  apply (uninterrupted_wake_up_evicts_exactly [] 50000000 _ _
           race_scheduled_areachable H kA (mkTimedData (IInt 1) 100000000)).
  split; [vm_compute; reflexivity | simpl; lia].
Defined.

(** X16.  When no client call falls inside the purger's wake-ups (and no
    deadline is 0), the schedule holds nothing stale: once the pending log
    has been replayed, every key that a bucket lists has an entry in the
    map whose deadline is the bucket's, and the bucket lists it once. *)
Theorem uninterrupted_schedule_lists_live_entries (args : list Z) (c : Cache) :
  areachable args c ->
  exists ts' : list Bucket,
    replay (operLog (tm c)) (timeouts (tm c)) = Ok ts'
    /\ forall (b : Bucket) (k : iface),
         b ∈ ts' -> k ∈ data b ->
         occurrences k (data b) = 1%nat
         /\ exists e : TimedData iface,
              cdata c !! k = Some e /\ timeout e = timeout b.
Proof.
  intros Hreach.
  pose proof (areachable_reachable args c Hreach) as Hr.
  pose proof (reachable_ladder_inv args c Hr) as Hinv.
  destruct (areachable_exact args c Hreach) as [Hex _].
  destruct (replay_inv (operLog (tm c)) (timeouts (tm c)) Hinv) as (ts' & Hrep & _).
  exists ts'. split; [exact Hrep|].
  intros b k Hb Hin.
  pose proof (replay_count k (timeout b) _ _ ts' Hinv Hrep) as Hc.
  fold (pending_count k (timeout b) c) in Hc. rewrite (Hex k (timeout b)) in Hc.
  assert (0 < scheduled_count k (timeout b) ts')%nat as Hpos.
  { apply scheduled_count_pos. exists b. auto. }
  destruct (decide (timeout <$> cdata c !! k = Some (timeout b))) as [Heq|]; [|lia].
  split.
  - apply list_elem_of_lookup in Hb as [i Hi].
    rewrite (scheduled_count_middle k (timeout b) ts' i b Hi) in Hc.
    unfold listed in Hc. rewrite decide_True in Hc by reflexivity.
    apply occurrences_pos in Hin. lia.
  - destruct (cdata c !! k) as [e|]; [|discriminate].
    exists e. split; [reflexivity|]. simpl in Heq. congruence.
Qed.

(** X16 at the state where ["a"] has been stored and scheduled. *)
Lemma uninterrupted_schedule_lists_live_entries_witness :
  areachable [] (state_of race_scheduled)
  /\ exists ts' : list Bucket,
       replay (operLog (tm (state_of race_scheduled)))
              (timeouts (tm (state_of race_scheduled))) = Ok ts'
       /\ forall (b : Bucket) (k : iface),
            b ∈ ts' -> k ∈ data b ->
            occurrences k (data b) = 1%nat
            /\ exists e : TimedData iface,
                 cdata (state_of race_scheduled) !! k = Some e
                 /\ timeout e = timeout b.
Proof.
  split; [exact race_scheduled_areachable|].
  exact (uninterrupted_schedule_lists_live_entries [] _ race_scheduled_areachable).
Defined.

(** ** Calls that change the earliest deadline *)

Lemma purge_nextPurgeTime_head (now : Z) (c : Cache) :
  nextPurgeTime (tm (purgeAndResetTimer now c))
  = head_deadline (timeouts (tm (purgeAndResetTimer now c))).
Proof.
  unfold purgeAndResetTimer.
  set (c1 := deleteExpiredEntries now c).
  destruct (timeouts (tm c1)) as [|b ts] eqn:Hts; simpl.
  - rewrite Hts. simpl. rewrite Hts. reflexivity.
  - destruct (decide (nextPurgeTime (tm c1) = timeout b)) as [Heq|Hne];
      simpl; rewrite Hts; simpl.
    + rewrite decide_True by exact Heq. simpl. rewrite Hts. exact Heq.
    + rewrite decide_False by exact Hne. simpl. rewrite Hts. reflexivity.
Qed.

Lemma areachable_nextPurgeTime (args : list Z) (c : Cache) :
  areachable args c ->
  nextPurgeTime (tm c) = head_deadline (timeouts (tm c)).
Proof.
  induction 1 as [|c c' _ IH Hstep]; [reflexivity|].
  destruct Hstep as [k v t now c c' _ H | k c c' v H | c c' H | w now c c' H].
  - destruct (Z.leb_spec t 0) as [Hle|Hpos].
    { unfold Put in H. destruct (Z.leb_spec t 0); [|lia]. injection H as <-. exact IH. }
    pose proof (Put_Ok_fields k v t now c c' Hpos H) as (_ & _ & _ & Ht & Hn & _).
    pose proof (Put_locked_fields k v t now c) as (_ & _ & _ & Ht1 & Hn1 & _).
    cbv zeta in *. congruence.
  - destruct (cdata c !! k) as [vt|] eqn:Hk.
    + pose proof (Remove_Ok_fields k vt c c' v Hk H) as (_ & _ & _ & _ & Ht & Hn & _).
      pose proof (Remove_locked_fields k vt c) as (_ & _ & _ & Ht1 & Hn1 & _).
      cbv zeta in *. congruence.
    + unfold Remove in H. rewrite Hk in H. injection H as <- _. exact IH.
  - unfold Close, tmClose in H. simpl in H.
    destruct (closed (resched (tm c))); [discriminate|].
    injection H as <-. exact IH.
  - unfold purger_iter in H. destruct (purgerRunning c); [|discriminate].
    destruct w.
    + unfold recv_resched in H. destruct (buffered (resched (tm c))).
      * injection H as H. unfold handleResched in H.
        destruct (updateTimeoutsFromPendingList _) as [c1|]; [|discriminate].
        injection H as <-. apply purge_nextPurgeTime_head.
      * destruct (closed (resched (tm c))); [|discriminate].
        injection H as <-. exact IH.
    + unfold timer_fire in H. destruct (purgeTimer (tm c)) as [e|]; [|discriminate].
      destruct (e <=? now); [|discriminate].
      injection H as H. unfold handleResched in H.
      destruct (updateTimeoutsFromPendingList _) as [c1|]; [|discriminate].
      injection H as <-. apply purge_nextPurgeTime_head.
Qed.

(** X17.  When no client call falls inside the purger's wake-ups,
    [nextPurgeTime] is the deadline of the head bucket ([MaxInt64] for an
    empty ladder), so a call that changes the earliest deadline asks for a
    signal: a [Put] whose deadline is earlier than the head bucket's, and a
    [Remove] of an entry whose deadline is the head bucket's.  On a cache
    that has not been closed the call returns with a token in [resched]. *)
Theorem earliest_deadline_signals (args : list Z) (k v : iface) (timeoutMs now : Z)
    (c : Cache) :
  areachable args c ->
  closed (resched (tm c)) = false ->
  (0 < timeoutMs ->
   deadline timeoutMs now < head_deadline (timeouts (tm c)) ->
   (Put_locked k v timeoutMs now c).2 = true
   /\ exists c' : Cache,
        Put k v timeoutMs now c = Ok c' /\ buffered (resched (tm c')) = true)
  /\ (forall vt : TimedData iface,
        cdata c !! k = Some vt ->
        timeout vt = head_deadline (timeouts (tm c)) ->
        (Remove_locked k vt c).2 = true
        /\ exists c' : Cache,
             Remove k c = Ok (c', data vt) /\ buffered (resched (tm c')) = true).
Proof.
  intros Hreach Hopen.
  pose proof (areachable_nextPurgeTime args c Hreach) as Hn. rewrite <- Hn.
  split.
  - intros Hpos Hlt.
    assert ((Put_locked k v timeoutMs now c).2 = true) as Hneed.
    { unfold Put_locked. fold (deadline timeoutMs now).
      destruct (appendAddOper _ _ _ _) as [t need] eqn:E.
      pose proof (f_equal snd E) as Hneed. cbn [fst snd tm set_tm] in Hneed.
      unfold appendAddOper in Hneed.
      match type of Hneed with
      | context [?a || (deadline timeoutMs now <? ?n) || ?b] =>
          assert (n = nextPurgeTime (tm c)) as Hn'
            by (destruct (_ =? 0); reflexivity);
          replace (a || (deadline timeoutMs now <? n) || b) with true in Hneed
      end.
      - cbn [snd] in Hneed. subst need. reflexivity.
      - symmetry. rewrite Hn'. apply Z.ltb_lt in Hlt. rewrite Hlt.
        rewrite orb_true_r. reflexivity. }
    split; [exact Hneed|].
    unfold Put. destruct (Z.leb_spec timeoutMs 0) as [Hle|_]; [lia|].
    pose proof (Put_locked_fields k v timeoutMs now c)
      as (_ & _ & _ & _ & _ & Hch & _).
    destruct (Put_locked k v timeoutMs now c) as [c1 need].
    cbn [fst snd] in Hneed, Hch. subst need.
    unfold notifyResched. rewrite Hch, Hopen. simpl.
    eexists. split; reflexivity.
  - intros vt Hk Heq.
    assert ((Remove_locked k vt c).2 = true) as Hneed.
    { unfold Remove_locked.
      destruct (appendDelOper _ _ _) as [t need] eqn:E.
      pose proof (f_equal snd E) as Hneed. cbn [fst snd tm set_tm] in Hneed.
      unfold appendDelOper in Hneed. cbn in Hneed.
      rewrite Heq, Z.eqb_refl in Hneed. cbn in Hneed. subst need. reflexivity. }
    split; [exact Hneed|].
    unfold Remove. rewrite Hk.
    pose proof (Remove_locked_fields k vt c) as (_ & _ & _ & _ & _ & Hch & _).
    destruct (Remove_locked k vt c) as [c1 need].
    cbn [fst snd] in Hneed, Hch. subst need.
    unfold notifyResched. rewrite Hch, Hopen. simpl.
    eexists. split; reflexivity.
Qed.

(** X17 at the state where ["a"] is scheduled at 100 ms: a [Put] with an
    earlier deadline, and the [Remove] of ["a"]. *)
Lemma earliest_deadline_signals_witness :
  areachable [] (state_of race_scheduled)
  /\ closed (resched (tm (state_of race_scheduled))) = false
  /\ (Put_locked kH (IInt 0) 10 0 (state_of race_scheduled)).2 = true
  /\ (Remove_locked kA (mkTimedData (IInt 1) 100000000) (state_of race_scheduled)).2
     = true.
Proof.
  assert (closed (resched (tm (state_of race_scheduled))) = false) as Hopen
    by (vm_compute; reflexivity).
  split; [exact race_scheduled_areachable|]. split; [exact Hopen|].
  pose proof (earliest_deadline_signals [] kH (IInt 0) 10 0 _
                race_scheduled_areachable Hopen) as [HPut _].
  pose proof (earliest_deadline_signals [] kA (IInt 0) 10 0 _
                race_scheduled_areachable Hopen) as [_ HRemove].
  split.
  - apply HPut; [lia | vm_compute; reflexivity].
  - apply (HRemove (mkTimedData (IInt 1) 100000000)); vm_compute; reflexivity.
Defined.

(** ** The insertion of a bucket *)

(** X18.  The [append], [copy] and assignment that make room for a new
    bucket at index [i] of a ladder of length [l >= i] give a ladder of
    length [l + 1] with an empty bucket for the new deadline at [i], the
    buckets before [i] where they were and the others one place to the
    right. *)
Theorem insertBucket_shifts_right (i : nat) (t : Z) (ts : list Bucket) :
  (i <= length ts)%nat ->
  length (insertBucket i t ts) = S (length ts)
  /\ insertBucket i t ts !! i = Some (mkTimedData [] t)
  /\ (forall j : nat, (j < i)%nat -> insertBucket i t ts !! j = ts !! j)
  /\ (forall j : nat, (i <= j)%nat -> insertBucket i t ts !! S j = ts !! j).
Proof.
  intros Hi. rewrite insertBucket_eq by exact Hi.
  assert (length (take i ts) = i) as Hlen by (rewrite length_take; lia).
  split; [|split; [|split]].
  - rewrite length_app, Hlen. simpl. rewrite length_drop. lia.
  - apply list_lookup_middle. symmetry. exact Hlen.
  - intros j Hj. rewrite lookup_app_l by lia. apply lookup_take_lt. exact Hj.
  - intros j Hj. rewrite lookup_app_r by lia. rewrite Hlen.
    replace (S j - i)%nat with (S (j - i)) by lia. simpl.
    rewrite lookup_drop. f_equal. lia.
Qed.

(** X18 for an insertion in the middle of a ladder of two buckets. *)
Lemma insertBucket_shifts_right_witness :
  (1 <= length [mkTimedData [kA] 10; mkTimedData [kC] 30])%nat
  /\ insertBucket 1 20 [mkTimedData [kA] 10; mkTimedData [kC] 30]
     !! 2%nat = Some (mkTimedData [kC] 30).
Proof.
  assert (1 <= length [mkTimedData [kA] 10; mkTimedData [kC] 30])%nat as Hi
    by (simpl; lia).
  split; [exact Hi|].
  apply (proj2 (proj2 (proj2 (insertBucket_shifts_right 1 20 _ Hi))) 1%nat).
  lia.
Defined.

(** ** [Remove] and [Get] *)

(** X19.  After a [Remove] that returns, [Get] of the removed key yields
    nil and [Get] of any other key yields what it did before. *)
Theorem Remove_then_Get (k : iface) (c c' : Cache) (r : iface) :
  Remove k c = Ok (c', r) ->
  Get k c' = INil
  /\ forall k' : iface, k' <> k -> Get k' c' = Get k' c.
Proof.
  intros Hrem. unfold Get.
  destruct (cdata c !! k) as [vt|] eqn:Hk.
  - pose proof (Remove_Ok_fields k vt c c' r Hk Hrem) as (_ & Hd & _).
    pose proof (Remove_locked_fields k vt c) as (Hd1 & _).
    cbv zeta in *. rewrite Hd1 in Hd. rewrite Hd. split.
    + rewrite lookup_delete_eq. reflexivity.
    + intros k' Hne. rewrite lookup_delete_ne by congruence. reflexivity.
  - unfold Remove in Hrem. rewrite Hk in Hrem. injection Hrem as <- _.
    rewrite Hk. split; reflexivity.
Qed.

(** X19 at the state of the replace run. *)
Lemma Remove_then_Get_witness :
  exists c' : Cache,
    Remove kA (state_of race_before_sweep) = Ok (c', IInt 2)
    /\ Get kA c' = INil.
Proof.
  assert (exists c', Remove kA (state_of race_before_sweep) = Ok (c', IInt 2))
    as [c' H] by (eexists; vm_compute; reflexivity).
  exists c'. split; [exact H|].
  exact (proj1 (Remove_then_Get kA _ c' (IInt 2) H)).
Defined.

(** ** The log bound while the counter is right *)

(** X20.  If no entry has deadline 0 and [cacheSize] is the number of
    entries of the map, then a [Put] that asks for no signal leaves a log
    no longer than the greater of [pendingMax] and [pendingRatio] times the
    number of entries the map then has (the numbers being in the range of a
    Go [int]). *)
Theorem quiet_Put_bounds_log (k v : iface) (timeoutMs now : Z) (c c' : Cache) :
  no_zero_deadline c ->
  cacheSize (tm c) = Size c ->
  0 < timeoutMs ->
  Put_locked k v timeoutMs now c = (c', false) ->
  Size c' <= MaxInt64 ->
  int64_range (pendingRatio (tm c') * Size c') ->
  cacheSize (tm c') = Size c'
  /\ len (operLog (tm c'))
     <= Z.max (pendingMax (tm c')) (pendingRatio (tm c') * Size c').
Proof.
  intros Hnz Hcs Hpos Hput Hsz Hrange.
  pose proof (Put_locked_fields k v timeoutMs now c) as (Hd & _ & Hs & _).
  rewrite Hput in Hd, Hs. cbn [fst] in Hd, Hs.
  assert (Size c' = match cdata c !! k with Some _ => Size c | None => Size c + 1 end)
    as Hsize.
  { unfold Size. rewrite Hd, map_size_insert.
    destruct (cdata c !! k); unfold id; lia. }
  assert (cacheSize (tm c') = Size c') as Hcs'.
  { rewrite Hs, Hsize. destruct (cdata c !! k) as [e|] eqn:Hk.
    - pose proof (Hnz k e Hk). destruct (Z.eqb_spec (timeout e) 0); [contradiction|].
      exact Hcs.
    - simpl. rewrite Hcs. apply wrap64_id.
      rewrite Hsize in Hsz. unfold int64_range. unfold Size in *. lia. }
  split; [exact Hcs'|].
  assert (len (operLog (tm c')) <= pendingLimit (tm c')) as Hlim.
  { unfold Put_locked in Hput.
    destruct (appendAddOper _ _ _ _) as [t need] eqn:E.
    injection Hput as <- ->. cbn [tm set_tm].
    unfold appendAddOper in E.
    destruct (_ || _ || _) eqn:Hb; [discriminate|].
    injection E as <-.
    apply orb_false_iff in Hb as [_ Hb]. apply Z.ltb_ge in Hb. exact Hb. }
  rewrite pendingLimit_max, Hcs' in Hlim.
  rewrite (wrap64_id _ Hrange) in Hlim. exact Hlim.
Qed.

(** X20 at the state where ["a"] is scheduled at 100 ms, for a [Put] of a
    new key with a later deadline. *)
Lemma quiet_Put_bounds_log_witness :
  no_zero_deadline (state_of race_scheduled)
  /\ cacheSize (tm (state_of race_scheduled)) = Size (state_of race_scheduled)
  /\ len (operLog (tm (Put_locked kH (IInt 0) 200 0 (state_of race_scheduled)).1))
     <= Z.max 32 (2 * 2).
Proof.
  set (c0 := state_of race_scheduled).
  assert (no_zero_deadline c0) as Hnz
    by exact (proj2 (areachable_exact [] _ race_scheduled_areachable)).
  assert (cacheSize (tm c0) = Size c0) as Hcs by (vm_compute; reflexivity).
  split; [exact Hnz|]. split; [exact Hcs|].
  assert (Put_locked kH (IInt 0) 200 0 c0
          = ((Put_locked kH (IInt 0) 200 0 c0).1, false)) as Hput
    by (vm_compute; reflexivity).
  pose proof (quiet_Put_bounds_log kH (IInt 0) 200 0 c0 _ Hnz Hcs
                ltac:(lia) Hput) as H.
  assert (Size (Put_locked kH (IInt 0) 200 0 c0).1 = 2) as Hsz
    by (vm_compute; reflexivity).
  assert (pendingRatio (tm (Put_locked kH (IInt 0) 200 0 c0).1) = 2) as Hr
    by (vm_compute; reflexivity).
  assert (pendingMax (tm (Put_locked kH (IInt 0) 200 0 c0).1) = 32) as Hm
    by (vm_compute; reflexivity).
  rewrite Hsz, Hr, Hm in H.
  apply H; unfold int64_range, MaxInt64; lia.
Defined.

(** ** Where buckets come from *)

Lemma log_effect_pos (k : iface) (t : Z) (log : list LogRec) (n : nat) :
  (0 < log_effect k t log n)%nat ->
  (0 < n)%nat
  \/ exists r : LogRec, r ∈ log /\ data r = mkKeyOper k ADD /\ timeout r = t.
Proof.
  revert n. induction log as [|r log IH]; intros n; [left; assumption|].
  unfold log_effect. simpl. fold (log_effect k t log). intros Hpos.
  apply IH in Hpos as [Hpos | (r' & Hr' & H')].
  - unfold record_effect, concerns in Hpos.
    destruct (bool_decide (key (data r) = k /\ timeout r = t)) eqn:Hc;
      [|left; exact Hpos].
    apply bool_decide_eq_true_1 in Hc as [Hk Ht].
    destruct (oper (data r)) eqn:Ho.
    + right. exists r. split; [left|]. split; [|exact Ht].
      destruct r as [[rk ro] rt]. simpl in *. congruence.
    + left. lia.
  - right. exists r'. split; [right; exact Hr' | exact H'].
Qed.

(** X21.  A replay only makes buckets that an ADD of the log asks for:
    every deadline of the ladder after the replay was a deadline of the
    ladder before or is the deadline of an ADD record of the log. *)
Theorem replay_creates_only_added_deadlines (log : list LogRec) (ts ts' : list Bucket)
    (t : Z) :
  ladder_inv ts ->
  replay log ts = Ok ts' ->
  t ∈ deadlines ts' ->
  t ∈ deadlines ts
  \/ exists r : LogRec, r ∈ log /\ oper (data r) = ADD /\ timeout r = t.
Proof.
  intros Hinv Hrep Hin.
  destruct (replay_inv log ts Hinv) as (ts1 & Hrep1 & _ & Hne).
  assert (ts1 = ts') as -> by congruence.
  apply list_elem_of_fmap in Hin as (b & -> & Hb).
  pose proof (proj1 (Forall_forall _ _) Hne b Hb) as Hkeys. simpl in Hkeys.
  destruct (data b) as [|k rest] eqn:Hdata; [contradiction|].
  assert (0 < scheduled_count k (timeout b) ts')%nat as Hpos.
  { apply scheduled_count_pos. exists b. split; [exact Hb|].
    split; [reflexivity|]. rewrite Hdata. left. }
  rewrite (replay_count k (timeout b) log ts ts' Hinv Hrep) in Hpos.
  apply log_effect_pos in Hpos as [Hpos | (r & Hr & Hd & Ht)].
  - left. apply scheduled_count_pos in Hpos as (b0 & Hb0 & Ht0 & _).
    apply list_elem_of_fmap. exists b0. split; [congruence | exact Hb0].
  - right. exists r. split; [exact Hr|]. split; [rewrite Hd; reflexivity | exact Ht].
Qed.

(** X21 at the state of the replace run, whose log holds a DEL for 100 ms
    and an ADD for 200 ms. *)
Lemma replay_creates_only_added_deadlines_witness :
  exists ts' : list Bucket,
    replay (operLog (tm (state_of race_before_sweep)))
           (timeouts (tm (state_of race_before_sweep))) = Ok ts'
    /\ 200000000 ∈ deadlines ts'
    /\ (200000000 ∈ deadlines (timeouts (tm (state_of race_before_sweep)))
        \/ exists r : LogRec,
             r ∈ operLog (tm (state_of race_before_sweep))
             /\ oper (data r) = ADD /\ timeout r = 200000000).
Proof.
  assert (ladder_inv (timeouts (tm (state_of race_before_sweep)))) as Hinv
    by exact (reachable_ladder_inv [] _ race_reachable).
  destruct (replay_inv (operLog (tm (state_of race_before_sweep))) _ Hinv)
    as (ts' & Hrep & _).
  assert (200000000 ∈ deadlines ts') as Hin.
  { assert (replay (operLog (tm (state_of race_before_sweep)))
                   (timeouts (tm (state_of race_before_sweep)))
            = Ok [mkTimedData [kA] 200000000]) as Hc by (vm_compute; reflexivity).
    rewrite Hc in Hrep. injection Hrep as <-. simpl. left. }
  exists ts'. split; [exact Hrep|]. split; [exact Hin|].
  exact (replay_creates_only_added_deadlines _ _ ts' 200000000 Hinv Hrep Hin).
Defined.

(** X6 at the state of the replace run, whose map holds ["a"]. *)
Lemma GetContent_spec_witness :
  exists m : gmap iface iface,
    GetContent (state_of race_before_sweep) = Some m
    /\ m !! kA = Some (Get kA (state_of race_before_sweep)).
Proof.
  pose proof (GetContent_spec (state_of race_before_sweep)) as H.
  destruct (GetContent (state_of race_before_sweep)) as [m|] eqn:Hm.
  - exists m. split; [reflexivity|].
    destruct H as [_ H]. destruct (H kA) as [Hlook Hget].
    apply Hget. rewrite Hlook.
    assert (cdata (state_of race_before_sweep) !! kA
            = Some (mkTimedData (IInt 2) 200000000)) as ->
      by (vm_compute; reflexivity).
    eexists. reflexivity.
  - exfalso.
    assert (cdata (state_of race_before_sweep) !! kA
            = Some (mkTimedData (IInt 2) 200000000)) as Hk
      by (vm_compute; reflexivity).
    rewrite H, lookup_empty in Hk. discriminate.
Defined.

(** ** Shut-down *)

(** X22.  In every state the system can reach in which [resched] has been
    closed and the purger is still running, the receive on [resched] is
    ready and ends the purger loop after at most two iterations: the first
    may still handle a buffered token, the second sees the closed channel.
    Neither iteration panics. *)
Theorem Close_stops_purger (args : list Z) (now1 now2 : Z) (c : Cache) :
  reachable args c ->
  purgerRunning c = true ->
  closed (resched (tm c)) = true ->
  exists c1 : Cache,
    purger_iter WResched now1 c = Some (Ok c1)
    /\ (purgerRunning c1 = false
        \/ exists c2 : Cache,
             purger_iter WResched now2 c1 = Some (Ok c2)
             /\ purgerRunning c2 = false).
Proof.
  intros Hreach Hrun Hcl. unfold purger_iter at 1. rewrite Hrun.
  destruct (recv_resched c) as [[c0 ok]|] eqn:Hrecv.
  - pose proof (recv_resched_frame c c0 ok Hrecv) as (_ & Hrun0 & Hcl0 & _).
    destruct ok.
    + assert (reachable args c0) as Hreach0.
      { eapply reach_step; [exact Hreach|]. eapply step_recv; eassumption. }
      pose proof (reachable_ladder_inv args c0 Hreach0) as Hinv0.
      destruct (updateTimeoutsFromPendingList_inv c0 Hinv0) as (c0' & H0 & _).
      assert (exists c1, handleResched now1 c0 = Ok c1) as [c1 H1].
      { unfold handleResched. rewrite H0. eexists. reflexivity. }
      exists c1. split; [rewrite H1; reflexivity|]. right.
      pose proof (handleResched_frame now1 c0 c1 H1) as [Hrun1 Hch1].
      assert (buffered (resched (tm c0)) = false) as Hbuf0.
      { unfold recv_resched in Hrecv.
        destruct (buffered (resched (tm c))); [|destruct (closed _); discriminate].
        injection Hrecv as <-. reflexivity. }
      unfold purger_iter, recv_resched.
      rewrite Hrun1, Hrun0, Hrun, Hch1, Hbuf0, Hcl0, Hcl.
      eexists. split; reflexivity.
    + exists (set_purgerRunning false c0). split; [reflexivity|]. left. reflexivity.
  - exfalso. unfold recv_resched in Hrecv. rewrite Hcl in Hrecv.
    destruct (buffered (resched (tm c))); discriminate.
Qed.

(** X22 at a fresh cache that has been closed. *)
Lemma Close_stops_purger_witness :
  exists c0 c1 : Cache,
    Close (New []) = Ok c0
    /\ purger_iter WResched 0 c0 = Some (Ok c1)
    /\ (purgerRunning c1 = false
        \/ exists c2 : Cache,
             purger_iter WResched 0 c1 = Some (Ok c2)
             /\ purgerRunning c2 = false).
Proof.
  assert (exists c0, Close (New []) = Ok c0) as [c0 H0] by (eexists; reflexivity).
  assert (reachable [] c0) as Hreach.
  { eapply reach_step; [apply reach_New | apply step_Close; exact H0]. }
  pose proof (Close_frame _ _ H0) as (_ & Hrun & Hcl).
  destruct (Close_stops_purger [] 0 0 c0 Hreach Hrun Hcl) as [c1 H1].
  exists c0, c1. split; [exact H0 | exact H1].
Defined.

(** ** From [Put] to eviction *)

(** X23.  In a run in which no client call falls inside the purger's
    wake-ups and no [Put] computes the deadline 0: after a further [Put] of
    [k] with a positive time-out and a deadline [d] other than 0, a wake-up
    that reads the clock at [now] leaves [Get k] at the stored value if
    [now] is before [d], and at nil otherwise. *)
Theorem Put_survives_until_deadline (args : list Z) (k v : iface)
    (timeoutMs t now : Z) (c c1 c2 : Cache) :
  areachable args c ->
  0 < timeoutMs ->
  deadline timeoutMs t <> 0 ->
  Put k v timeoutMs t c = Ok c1 ->
  handleResched now c1 = Ok c2 ->
  Get k c2 = if now <? deadline timeoutMs t then v else INil.
Proof.
  intros Hreach Hpos Hd0 Hput Hwake.
  assert (areachable args c1) as Hreach1.
  { eapply areach_step; [exact Hreach|]. eapply astep_Put; eassumption. }
  pose proof (Put_Ok_fields k v timeoutMs t c c1 Hpos Hput) as (Hd & _).
  pose proof (Put_locked_fields k v timeoutMs t c) as (Hd1 & _).
  cbv zeta in *. rewrite Hd1 in Hd.
  assert (cdata c1 !! k = Some (mkTimedData v (deadline timeoutMs t))) as Hk
    by (rewrite Hd; apply lookup_insert_eq).
  pose proof (handleResched_exact_eviction args now c1 c2 Hreach1 Hwake k) as Hiff.
  unfold Get. destruct (Z.ltb_spec now (deadline timeoutMs t)) as [Hlt|Hge].
  - rewrite (proj2 (Hiff _) (conj Hk Hlt)). reflexivity.
  - destruct (cdata c2 !! k) as [e|] eqn:Hk2; [|reflexivity].
    destruct (proj1 (Hiff e) eq_refl) as [Hk2' Hlt].
    rewrite Hk in Hk2'. injection Hk2' as <-. simpl in Hlt. lia.
Qed.

(** X23 for ["h"] stored for 10 ms at instant 0 on the cache where ["a"] is
    scheduled, woken 5 ms later. *)
Lemma Put_survives_until_deadline_witness :
  exists c1 c2 : Cache,
    Put kH (IInt 7) 10 0 (state_of race_scheduled) = Ok c1
    /\ handleResched 5000000 c1 = Ok c2
    /\ Get kH c2 = IInt 7.
Proof.
  assert (exists c1, Put kH (IInt 7) 10 0 (state_of race_scheduled) = Ok c1)
    as [c1 H1] by (eexists; vm_compute; reflexivity).
  assert (areachable [] c1) as Hreach1.
  { eapply areach_step; [exact race_scheduled_areachable|].
    apply (astep_Put kH (IInt 7) 10 0); [vm_compute; discriminate | exact H1]. }
  pose proof (areachable_reachable [] c1 Hreach1) as Hr1.
  pose proof (reachable_ladder_inv [] c1 Hr1) as Hinv1.
  destruct (updateTimeoutsFromPendingList_inv c1 Hinv1) as (c1' & Hu & _).
  assert (exists c2, handleResched 5000000 c1 = Ok c2) as [c2 H2].
  { unfold handleResched. rewrite Hu. eexists. reflexivity. }
  exists c1, c2. split; [exact H1|]. split; [exact H2|].
  assert (0 < 10) as Hpos by lia.
  assert (deadline 10 0 <> 0) as Hd0 by (vm_compute; discriminate).
  exact (Put_survives_until_deadline [] kH (IInt 7) 10 0 5000000 _ c1 c2
           race_scheduled_areachable Hpos Hd0 H1 H2).
Defined.

(** ** C10: [Remove] after [Close] *)

